(** * Action dispatch and agent control of habitat-sim

    A shallow embedding of [esp/scene/ObjectControls.cpp] and
    [esp/agent/Agent.cpp].

    The C++ code manipulates scene nodes through Magnum's scene-graph
    interface and computes with [float].  Neither is part of the two
    translation units, so both are kept abstract here: the arithmetic is a
    class of uninterpreted operations on a scalar type [F], and the scene
    graph is a class of queries and mutators over an abstract [Scene].
    Everything proved in the generic part therefore holds for any arithmetic,
    rounding included, and for any scene-graph implementation.  A reference
    scene graph over the reals instantiates the interface; it is used to
    evaluate the code on concrete scenes. *)

From Stdlib Require Import Reals Lra.
From stdpp Require Import base strings gmap list.

(** ** Magnum math values *)

(** The operations of [float] that the two files use. *)
Class Scalar (F : Type) := {
  f0 : F;
  f1 : F;
  fneg : F -> F;
  fadd : F -> F -> F;
  fsub : F -> F -> F;
  fmul : F -> F -> F
}.

Record Vector3 (F : Type) := mkVector3 { vx : F; vy : F; vz : F }.
Record Vector4 (F : Type) := mkVector4 { v4x : F; v4y : F; v4z : F; v4w : F }.
(** [Mn::Quaternion]: vector part and scalar part. *)
Record Quaternion (F : Type) := mkQuaternion { qvector : Vector3 F; qscalar : F }.

Arguments mkVector3 {F} _ _ _.
Arguments vx {F} _.
Arguments vy {F} _.
Arguments vz {F} _.
Arguments mkVector4 {F} _ _ _ _.
Arguments v4x {F} _.
Arguments v4y {F} _.
Arguments v4z {F} _.
Arguments v4w {F} _.
Arguments mkQuaternion {F} _ _.
Arguments qvector {F} _.
Arguments qscalar {F} _.

Section VectorOps.
Context {F : Type} `{Scalar F}.

(** [Vector3 * float] *)
Definition vscale (v : Vector3 F) (d : F) : Vector3 F :=
  mkVector3 (fmul (vx v) d) (fmul (vy v) d) (fmul (vz v) d).

(** [Vector3 - Vector3] *)
Definition vsub (a b : Vector3 F) : Vector3 F :=
  mkVector3 (fsub (vx a) (vx b)) (fsub (vy a) (vy b)) (fsub (vz a) (vz b)).

(** [Vector3 + Vector3] *)
Definition vadd (a b : Vector3 F) : Vector3 F :=
  mkVector3 (fadd (vx a) (vx b)) (fadd (vy a) (vy b)) (fadd (vz a) (vz b)).

(** [Vector4::xyz()] *)
Definition xyz (v : Vector4 F) : Vector3 F := mkVector3 (v4x v) (v4y v) (v4z v).

(** [Mn::Vector4(Vector3, float)] *)
Definition vector4_of (v : Vector3 F) (s : F) : Vector4 F :=
  mkVector4 (vx v) (vy v) (vz v) s.
End VectorOps.

(** [Quaternion::normalized()] and [Quaternion::isNormalized()]. *)
Class QuaternionMath (F : Type) := {
  normalized : Quaternion F -> Quaternion F;
  isNormalized : Quaternion F -> bool
}.

(** ** The scene-graph capability

    What [SceneNode] (a Magnum [Object3D]) and [Sensor] offer to the two
    files.  A [NodeRef] stands for a C++ reference to a live node, a
    [SensorRef] for a reference to a live sensor; the mutable scene is passed
    explicitly. *)
Class SceneGraph (F Scene NodeRef SensorRef : Type) := {
  (** [absoluteTransformation().translation()] *)
  absoluteTranslation : NodeRef -> Scene -> Vector3 F;
  (** [transformation().right()] *)
  transformationRight : NodeRef -> Scene -> Vector3 F;
  (** [transformation().backward()] *)
  transformationBackward : NodeRef -> Scene -> Vector3 F;
  (** [translation()] and [rotation()] *)
  translation : NodeRef -> Scene -> Vector3 F;
  rotation : NodeRef -> Scene -> Quaternion F;
  translate : NodeRef -> Vector3 F -> Scene -> Scene;
  translateLocal : NodeRef -> Vector3 F -> Scene -> Scene;
  (** the angle is in degrees: [rotateXLocal(Magnum::Deg(a))] *)
  rotateXLocal : NodeRef -> F -> Scene -> Scene;
  rotateYLocal : NodeRef -> F -> Scene -> Scene;
  setTranslation : NodeRef -> Vector3 F -> Scene -> Scene;
  setRotation : NodeRef -> Quaternion F -> Scene -> Scene;
  (** [getNodeSensors()]: a [std::map] from uuid to sensor, in key order *)
  getNodeSensors : NodeRef -> Scene -> list (string * SensorRef);
  (** [Sensor::object()] *)
  sensorObject : SensorRef -> NodeRef;
  (** [Sensor::setTransformationFromSpec()] *)
  setTransformationFromSpec : SensorRef -> Scene -> Scene
}.

(** Getter-after-setter and frame facts of a scene graph.  None of them
    involves arithmetic. *)
Class SceneGraphLaws {F Scene NodeRef SensorRef : Type}
    `{Scalar F} (SG : SceneGraph F Scene NodeRef SensorRef) : Prop := {
  translation_setTranslation n v s :
    translation n (setTranslation n v s) = v;
  translation_setTranslation_ne m n v s :
    m <> n -> translation m (setTranslation n v s) = translation m s;
  rotation_setTranslation m n v s :
    rotation m (setTranslation n v s) = rotation m s;
  getNodeSensors_setTranslation m n v s :
    getNodeSensors m (setTranslation n v s) = getNodeSensors m s;
  rotation_setRotation n q s :
    rotation n (setRotation n q s) = q;
  translation_setRotation m n q s :
    translation m (setRotation n q s) = translation m s;
  translation_translate n v s :
    translation n (translate n v s) = vadd (translation n s) v;
  rotation_translate m n v s :
    rotation m (translate n v s) = rotation m s
}.

(** ** Failures and the effect monad

    [std::map::at] throws [std::out_of_range]; a failing [CORRADE_ASSERT]
    prints its message and aborts (a build with graceful assertions returns
    from the function instead).  Either way nothing after the failing
    statement runs and the mutations made before it stay in place, so a
    failure carries the world it left behind. *)
Inductive Failure (F : Type) :=
| OutOfRange (key : string)
| NotAValidRotation (rot : Vector4 F).

Arguments OutOfRange {F} _.
Arguments NotAValidRotation {F} _.

Inductive Outcome (F W A : Type) :=
| Returned (a : A) (w : W)
| Failed (e : Failure F) (w : W).

Arguments Returned {F W A} _ _.
Arguments Failed {F W A} _ _.

Section Embedding.
Context {F Scene NodeRef SensorRef : Type}.
Context `{Scalar F} `{QuaternionMath F}.
Context `{SG : SceneGraph F Scene NodeRef SensorRef}.

(** The mutable world: the scene graph and the [ESP_ERROR] channel. *)
Record World := mkWorld { scene : Scene; errorLog : list string }.

Definition M (A : Type) : Type := World -> Outcome F World A.

#[global] Instance M_ret : MRet M := fun A a w => Returned a w.
#[global] Instance M_bind : MBind M := fun A B f m w =>
  match m w with
  | Returned a w' => f a w'
  | Failed e w' => Failed e w'
  end.

Definition fail {A : Type} (e : Failure F) : M A := fun w => Failed e w.

(** Run a scene mutator. *)
Definition modifyScene (f : Scene -> Scene) : M unit :=
  fun w => Returned tt (mkWorld (f (scene w)) (errorLog w)).

(** Read from the scene. *)
Definition readScene {A : Type} (f : Scene -> A) : M A :=
  fun w => Returned (f (scene w)) w.

(** [ESP_ERROR() << ...]: the streamed text is appended to the channel. *)
Definition ESP_ERROR (msg : string) (w : World) : World :=
  mkWorld (scene w) (errorLog w ++ [msg]).

(** [std::map::at] *)
Definition map_at {V : Type} (m : gmap string V) (key : string) : M V :=
  match m !! key with
  | Some v => mret v
  | None => fail (OutOfRange key)
  end.

(** [CORRADE_ASSERT(cond, message, )] *)
Definition CORRADE_ASSERT (cond : bool) (e : Failure F) : M unit :=
  if cond then mret tt else fail e.

(** A range-based [for] whose body may fail. *)
Fixpoint forEach {X : Type} (l : list X) (body : X -> M unit) : M unit :=
  match l with
  | [] => mret tt
  | x :: l' => body x ;; forEach l' body
  end.

(** ** ObjectControls.cpp *)

(** [MoveFunc] and [MoveFilterFunc] of ObjectControls.h.  The filter gets two
    positions and answers with one; it does not touch the scene. *)
#[local] Abbreviation MoveFunc := (NodeRef -> F -> Scene -> Scene).
#[local] Abbreviation MoveFilterFunc := (Vector3 F -> Vector3 F -> Vector3 F).

Definition moveRight : MoveFunc := fun object distance s =>
  translateLocal object (vscale (transformationRight object s) distance) s.

Definition moveLeft : MoveFunc := fun object distance s =>
  moveRight object (fneg distance) s.

Definition moveUp : MoveFunc := fun object distance s =>
  translate object (vscale (mkVector3 f0 f1 f0) distance) s.

Definition moveDown : MoveFunc := fun object distance s =>
  moveUp object (fneg distance) s.

Definition moveBackward : MoveFunc := fun object distance s =>
  translateLocal object (vscale (transformationBackward object s) distance) s.

Definition moveForward : MoveFunc := fun object distance s =>
  moveBackward object (fneg distance) s.

Definition turnLeft : MoveFunc := fun object angleInDegrees s =>
  let s1 := rotateYLocal object angleInDegrees s in
  setRotation object (normalized (rotation object s1)) s1.

Definition turnRight : MoveFunc := fun object angleInDegrees s =>
  turnLeft object (fneg angleInDegrees) s.

Definition lookUp : MoveFunc := fun object angleInDegrees s =>
  let s1 := rotateXLocal object angleInDegrees s in
  setRotation object (normalized (rotation object s1)) s1.

Definition lookDown : MoveFunc := fun object angleInDegrees s =>
  lookUp object (fneg angleInDegrees) s.

Record ObjectControls := mkObjectControls {
  moveFilterFunc_ : MoveFilterFunc;
  moveFuncMap_ : gmap string MoveFunc
}.

(** Modelled from the spec: the initial value of [moveFilterFunc_] is set in
    ObjectControls.h, which is not among the sources; section 4.3 gives it as
    the identity on the end position. *)
Definition defaultMoveFilterFunc : MoveFilterFunc := fun _start end_ => end_.

(** [ObjectControls::ObjectControls()] *)
Definition ObjectControls_new : ObjectControls :=
  mkObjectControls defaultMoveFilterFunc
    (<["lookDown" := lookDown]>
     (<["lookUp" := lookUp]>
      (<["turnRight" := turnRight]>
       (<["turnLeft" := turnLeft]>
        (<["moveBackward" := moveBackward]>
         (<["moveForward" := moveForward]>
          (<["moveDown" := moveDown]>
           (<["moveUp" := moveUp]>
            (<["moveLeft" := moveLeft]>
             (<["moveRight" := moveRight]> ∅)))))))))).

Definition setMoveFilterFunction (this : ObjectControls) (filterFunc : MoveFilterFunc)
  : ObjectControls :=
  mkObjectControls filterFunc (moveFuncMap_ this).

(** [ObjectControls::action]; the result pairs [*this] with the world. *)
Definition action (this : ObjectControls) (object : NodeRef) (actName : string)
    (distance : F) (applyFilter : bool) (w : World) : ObjectControls * World :=
  match moveFuncMap_ this !! actName with
  | Some moveFunc =>
      if applyFilter then
        let startPosition := absoluteTranslation object (scene w) in
        let s1 := moveFunc object distance (scene w) in
        let endPos := absoluteTranslation object s1 in
        let filteredEndPosition := moveFilterFunc_ this startPosition endPos in
        (this, mkWorld (translate object (vsub filteredEndPosition endPos) s1)
                       (errorLog w))
      else
        (this, mkWorld (moveFunc object distance (scene w)) (errorLog w))
  | None =>
      (this, ESP_ERROR ("Tried to perform unknown action with name " +:+ actName) w)
  end.

(** A call of [action] whose result [*this] is discarded. *)
Definition doAction (this : ObjectControls) (object : NodeRef) (actName : string)
    (distance : F) (applyFilter : bool) : M unit :=
  fun w => Returned tt (action this object actName distance applyFilter w).2.

(** ** Agent.cpp *)

Record ActionSpec := mkActionSpec {
  name : string;
  actuation : gmap string F
}.

(** The fields of [AgentConfiguration] that Agent.cpp reads in [act] and
    [hasAction]; [sensorSpecifications] and [bodyType] only occur in
    [operator==]. *)
Record AgentConfiguration := mkAgentConfiguration {
  height : F;
  radius : F;
  actionSpace : gmap string ActionSpec
}.

(** [AgentState]: the rotation is stored as x, y, z, w. *)
Record AgentState := mkAgentState {
  state_position : Vector3 F;
  state_rotation : Vector4 F
}.

Record Agent := mkAgent {
  node : NodeRef;
  configuration_ : AgentConfiguration;
  controls_ : ObjectControls;
  initialState_ : AgentState
}.

Definition BodyActions : gset string :=
  {[ "moveRight"; "moveLeft"; "moveForward"; "moveBackward"; "turnLeft"; "turnRight" ]}.

Definition hasAction (this : Agent) (actionName : string) : bool :=
  let actionSpace := actionSpace (configuration_ this) in
  negb (bool_decide (actionSpace !! actionName = None)).

(** [Agent::act].  The loop runs over the sensors enumerated when it starts;
    the dispatcher moves nodes and never attaches or detaches a sensor. *)
Definition act (this : Agent) (actionName : string) : M bool :=
  if hasAction this actionName then
    actionSpec ← map_at (actionSpace (configuration_ this)) actionName;
    (if bool_decide (name actionSpec ∈ BodyActions) then
       amount ← map_at (actuation actionSpec) "amount";
       doAction (controls_ this) (node this) (name actionSpec) amount true
     else
       sensors ← readScene (getNodeSensors (node this));
       forEach sensors (fun p =>
         amount ← map_at (actuation actionSpec) "amount";
         doAction (controls_ this) (sensorObject p.2) (name actionSpec) amount false));;
    mret true
  else mret false.

(** [Agent::getState]: the two assignments to the state object. *)
Definition getState (this : Agent) (state : AgentState) (s : Scene) : AgentState :=
  let state1 := mkAgentState (absoluteTranslation (node this) s) (state_rotation state) in
  let rot := rotation (node this) s in
  mkAgentState (state_position state1) (vector4_of (qvector rot) (qscalar rot)).

Definition setState (this : Agent) (state : AgentState) (resetSensors : bool) : M unit :=
  modifyScene (setTranslation (node this) (state_position state));;
  let rot := mkQuaternion (xyz (state_rotation state)) (v4w (state_rotation state)) in
  CORRADE_ASSERT (isNormalized rot) (NotAValidRotation (state_rotation state));;
  modifyScene (setRotation (node this) rot);;
  if resetSensors then
    sensors ← readScene (getNodeSensors (node this));
    forEach sensors (fun p => modifyScene (setTransformationFromSpec p.2))
  else mret tt.


(** ** Vocabulary of the statements *)

(** The state [act] reaches for a body action. *)
Definition bodyActionResult (this : Agent) (actionSpec : ActionSpec) (amount : F)
    (w : World) : World :=
  (action (controls_ this) (node this) (name actionSpec) amount true w).2.

(** The state [act] reaches for a sensor action: one unfiltered call of the
    dispatcher per attached sensor, on that sensor's node, in enumeration
    order. *)
Definition sensorActionResult (this : Agent) (actionSpec : ActionSpec) (amount : F)
    (w : World) : World :=
  foldl (fun w' (p : string * SensorRef) =>
           (action (controls_ this) (sensorObject p.2) (name actionSpec) amount false w').2)
        w (getNodeSensors (node this) (scene w)).

(** The quaternion [setState] builds from the x, y, z, w of the state. *)
Definition stateQuaternion (state : AgentState) : Quaternion F :=
  mkQuaternion (xyz (state_rotation state)) (v4w (state_rotation state)).

(** The scene after both commits of [setState]. *)
Definition committedPose (this : Agent) (state : AgentState) (s : Scene) : Scene :=
  setRotation (node this) (stateQuaternion state)
    (setTranslation (node this) (state_position state) s).

(** Every attached sensor re-derives its transformation, in enumeration
    order. *)
Definition sensorsReset (this : Agent) (s : Scene) : Scene :=
  foldl (fun s' (p : string * SensorRef) => setTransformationFromSpec p.2 s')
        s (getNodeSensors (node this) s).

End Embedding.

(** ** A reference scene graph over the reals

    Modelled from the spec: the scene-graph node capability of section 6
    (absolute and local transform, translate, rotate-local, set translation
    and rotation, enumeration of attached sensors) is not among the sources.
    It is realised here the way Magnum's translation-rotation-scaling
    transformation documents it, over exact reals: every node stores a
    translation, a rotation quaternion and a scaling relative to its parent,
    and its absolute transformation composes the local ones down from the
    root.  A node is addressed by its path: [i :: p] is child [i] of node
    [p], and [[]] is a node without a parent.

    Exact reals idealise [float]: they know no rounding, overflow, NaN or
    signed zero.  The model is there to run the code on scenes whose numbers
    [float] represents and combines exactly, and for facts that are
    structural; a fact that leans on exactness says so and is no statement
    about the rounded computation. *)

Section RealModel.
Local Open Scope R_scope.

#[global] Instance RScalar : Scalar R :=
  {| f0 := 0; f1 := 1; fneg := Ropp; fadd := Rplus; fsub := Rminus; fmul := Rmult |}.

(** [Math::dot(q, q)] *)
Definition qdot (q : Quaternion R) : R :=
  vx (qvector q) * vx (qvector q) + vy (qvector q) * vy (qvector q)
  + vz (qvector q) * vz (qvector q) + qscalar q * qscalar q.

(** [Quaternion / float] *)
Definition qdiv (q : Quaternion R) (d : R) : Quaternion R :=
  mkQuaternion
    (mkVector3 (vx (qvector q) / d) (vy (qvector q) / d) (vz (qvector q) / d))
    (qscalar q / d).

(** [Quaternion::normalized()]: the quaternion divided by its length *)
Definition Rnormalized (q : Quaternion R) : Quaternion R := qdiv q (sqrt (qdot q)).

(** [TypeTraits<Float>::epsilon()] *)
Definition Repsilon : R := 1 / 100000.

(** [Quaternion::isNormalized()]: the squared length is within [2 epsilon]
    of one *)
Definition RisNormalized (q : Quaternion R) : bool :=
  if Rlt_dec (Rabs (qdot q - 1)) (2 * Repsilon) then true else false.

#[global] Instance RQuaternionMath : QuaternionMath R :=
  {| normalized := Rnormalized; isNormalized := RisNormalized |}.

(** [Quaternion * Quaternion] *)
Definition qmul (p q : Quaternion R) : Quaternion R :=
  let '(mkQuaternion (mkVector3 px py pz) ps) := p in
  let '(mkQuaternion (mkVector3 qx qy qz) qs) := q in
  mkQuaternion
    (mkVector3 (ps * qx + qs * px + (py * qz - pz * qy))
               (ps * qy + qs * py + (pz * qx - px * qz))
               (ps * qz + qs * pz + (px * qy - py * qx)))
    (ps * qs - (px * qx + py * qy + pz * qz)).

(** [Quaternion::rotation(Rad, axis)] with the angle converted from degrees *)
Definition qrotationDeg (angleInDegrees : R) (axis : Vector3 R) : Quaternion R :=
  let half := angleInDegrees * PI / 180 / 2 in
  mkQuaternion (vscale axis (sin half)) (cos half).

Definition xAxis : Vector3 R := mkVector3 1 0 0.
Definition yAxis : Vector3 R := mkVector3 0 1 0.

(** An affine [Matrix4], by its columns. *)
Record Matrix4 := mkMatrix4 {
  m_right : Vector3 R;
  m_up : Vector3 R;
  m_backward : Vector3 R;
  m_translation : Vector3 R
}.

(** The rotation-and-scaling part applied to a vector. *)
Definition mlinear (a : Matrix4) (v : Vector3 R) : Vector3 R :=
  vadd (vadd (vscale (m_right a) (vx v)) (vscale (m_up a) (vy v)))
       (vscale (m_backward a) (vz v)).

(** [Matrix4 * Matrix4] *)
Definition mmul (a b : Matrix4) : Matrix4 :=
  mkMatrix4 (mlinear a (m_right b)) (mlinear a (m_up b)) (mlinear a (m_backward b))
            (vadd (mlinear a (m_translation b)) (m_translation a)).

(** [Matrix4::from(rotation.toMatrix() * Matrix3x3::fromDiagonal(scaling),
    translation)] *)
Definition trsMatrix (t : Vector3 R) (q : Quaternion R) (k : Vector3 R) : Matrix4 :=
  let '(mkQuaternion (mkVector3 x y z) w) := q in
  mkMatrix4
    (vscale (mkVector3 (1 - 2 * (y * y + z * z)) (2 * (x * y + z * w)) (2 * (x * z - y * w)))
            (vx k))
    (vscale (mkVector3 (2 * (x * y - z * w)) (1 - 2 * (x * x + z * z)) (2 * (y * z + x * w)))
            (vy k))
    (vscale (mkVector3 (2 * (x * z + y * w)) (2 * (y * z - x * w)) (1 - 2 * (x * x + y * y)))
            (vz k))
    t.

(** A sensor: the node it is attached to and the pose its specification
    prescribes. *)
Record RSensor := mkRSensor {
  sensorNode : list nat;
  specTranslation : Vector3 R;
  specRotation : Quaternion R
}.

Record NodeData := mkNodeData {
  nTranslation : Vector3 R;
  nRotation : Quaternion R;
  nScaling : Vector3 R;
  nSensors : list (string * RSensor)
}.

Definition RScene : Type := list nat -> NodeData.

(** Mutation of one node. *)
Definition updateNode (n : list nat) (f : NodeData -> NodeData) (s : RScene) : RScene :=
  fun m => if decide (m = n) then f (s m) else s m.

(** [transformation()] *)
Definition localTransformation (n : list nat) (s : RScene) : Matrix4 :=
  trsMatrix (nTranslation (s n)) (nRotation (s n)) (nScaling (s n)).

(** [absoluteTransformation()] *)
Fixpoint absoluteTransformation (n : list nat) (s : RScene) : Matrix4 :=
  match n with
  | [] => localTransformation [] s
  | _ :: p => mmul (absoluteTransformation p s) (localTransformation n s)
  end.

(** [translate(v)]: [_translation += v].  This transformation keeps no
    separate local translation: [translateLocal(v)] does the same. *)
Definition Rtranslate (n : list nat) (v : Vector3 R) : RScene -> RScene :=
  updateNode n (fun d =>
    mkNodeData (vadd (nTranslation d) v) (nRotation d) (nScaling d) (nSensors d)).

(** [rotateLocal(q)]: [_rotation = _rotation * q] *)
Definition RrotateLocal (n : list nat) (q : Quaternion R) : RScene -> RScene :=
  updateNode n (fun d =>
    mkNodeData (nTranslation d) (qmul (nRotation d) q) (nScaling d) (nSensors d)).

Definition RsetTranslation (n : list nat) (v : Vector3 R) : RScene -> RScene :=
  updateNode n (fun d => mkNodeData v (nRotation d) (nScaling d) (nSensors d)).

Definition RsetRotation (n : list nat) (q : Quaternion R) : RScene -> RScene :=
  updateNode n (fun d => mkNodeData (nTranslation d) q (nScaling d) (nSensors d)).

(** Modelled from the spec: [setTransformationFromSpec] re-derives the
    sub-node's pose from the sensor's own declarative specification. *)
Definition RsetTransformationFromSpec (p : RSensor) : RScene -> RScene :=
  updateNode (sensorNode p) (fun d =>
    mkNodeData (specTranslation p) (specRotation p) (mkVector3 1 1 1) (nSensors d)).

#[global] Instance RSceneGraph : SceneGraph R RScene (list nat) RSensor := {|
  absoluteTranslation n s := m_translation (absoluteTransformation n s);
  transformationRight n s := m_right (localTransformation n s);
  transformationBackward n s := m_backward (localTransformation n s);
  translation n s := nTranslation (s n);
  rotation n s := nRotation (s n);
  translate := Rtranslate;
  translateLocal := Rtranslate;
  rotateXLocal n a := RrotateLocal n (qrotationDeg a xAxis);
  rotateYLocal n a := RrotateLocal n (qrotationDeg a yAxis);
  setTranslation := RsetTranslation;
  setRotation := RsetRotation;
  getNodeSensors n s := nSensors (s n);
  sensorObject := sensorNode;
  setTransformationFromSpec := RsetTransformationFromSpec
|}.

(** A local rotation followed by re-normalisation, as [turnLeft] and
    [lookUp] do it. *)
Definition rotateAndNormalize (axis : Vector3 R) (n : list nat) (a : R) (s : RScene)
  : RScene :=
  let s1 := RrotateLocal n (qrotationDeg a axis) s in
  RsetRotation n (Rnormalized (nRotation (s1 n))) s1.

(** A freshly created node: identity transformation, no sensors. *)
Definition freshNode : NodeData :=
  mkNodeData (mkVector3 0 0 0) (mkQuaternion (mkVector3 0 0 0) 1) (mkVector3 1 1 1) [].

Definition emptyScene : RScene := fun _ => freshNode.

(** ** Concrete scenes and agents *)

Definition world0 : @World RScene := mkWorld emptyScene [].

Definition rgbSensor : RSensor :=
  mkRSensor [0%nat] (mkVector3 0 (3 / 2) 0) (mkQuaternion (mkVector3 0 0 0) 1).
Definition depthSensor : RSensor :=
  mkRSensor [1%nat] (mkVector3 0 (3 / 2) 0) (mkQuaternion (mkVector3 0 0 0) 1).

(** The parentless node [[]] carries two sensors, on its children [[0]] and
    [[1]]. *)
Definition sceneWithSensors : RScene :=
  updateNode [] (fun d =>
    mkNodeData (nTranslation d) (nRotation d) (nScaling d)
               [("depth", depthSensor); ("rgb", rgbSensor)]) emptyScene.

Definition unitState : @AgentState R :=
  mkAgentState (mkVector3 0 0 0) (mkVector4 0 0 0 1).

(** Five units along x, identity rotation. *)
Definition movedState : @AgentState R :=
  mkAgentState (mkVector3 5 0 0) (mkVector4 0 0 0 1).

(** A state whose rotation has length two. *)
Definition stretchedState : @AgentState R :=
  mkAgentState (mkVector3 5 0 0) (mkVector4 0 0 0 2).

Definition demoActionSpace : gmap string (@ActionSpec R) :=
  <["lookUp" := mkActionSpec "lookUp" {["amount" := 10]}]>
    (<["moveForward" := mkActionSpec "moveForward" {["amount" := 1 / 4]}]> ∅).

Definition demoAgent : @Agent R RScene (list nat) :=
  mkAgent [] (mkAgentConfiguration (3 / 2) (1 / 10) demoActionSpace)
          ObjectControls_new unitState.

(** An action space whose entries carry no "amount". *)
Definition bareActionSpace : gmap string (@ActionSpec R) :=
  <["lookUp" := mkActionSpec "lookUp" ∅]>
    (<["moveForward" := mkActionSpec "moveForward" ∅]> ∅).

Definition bareAgent : @Agent R RScene (list nat) :=
  mkAgent [] (mkAgentConfiguration (3 / 2) (1 / 10) bareActionSpace)
          ObjectControls_new unitState.

(** An agent on node [[0]], a child of [[]]. *)
Definition nestedAgent : @Agent R RScene (list nat) :=
  mkAgent [0%nat] (mkAgentConfiguration (3 / 2) (1 / 10) demoActionSpace)
          ObjectControls_new unitState.

(** The parent [[]] moved one unit along x. *)
Definition shiftedParentScene : RScene :=
  RsetTranslation [] (mkVector3 1 0 0) emptyScene.

(** The parent [[]] turned by half a turn about its x axis: the quaternion
    [(1, 0, 0; 0)]. *)
Definition flippedParentScene : RScene :=
  RsetRotation [] (mkQuaternion (mkVector3 1 0 0) 0) emptyScene.

End RealModel.

(** ** Further vocabulary *)

(** Frame facts of the mutators that [SceneGraphLaws] leaves out: a mutator
    changes the transformation of the node it is called on and nothing else;
    a translation leaves rotations alone and a rotation leaves translations
    alone. *)
Class SceneGraphFrameLaws {F Scene NodeRef SensorRef : Type}
    `{Scalar F} (SG : SceneGraph F Scene NodeRef SensorRef) : Prop := {
  translation_translate_ne m n v s :
    m <> n -> translation m (translate n v s) = translation m s;
  translation_translateLocal_ne m n v s :
    m <> n -> translation m (translateLocal n v s) = translation m s;
  rotation_translateLocal m n v s :
    rotation m (translateLocal n v s) = rotation m s;
  translation_rotateXLocal m n a s :
    translation m (rotateXLocal n a s) = translation m s;
  translation_rotateYLocal m n a s :
    translation m (rotateYLocal n a s) = translation m s;
  rotation_rotateXLocal_ne m n a s :
    m <> n -> rotation m (rotateXLocal n a s) = rotation m s;
  rotation_rotateYLocal_ne m n a s :
    m <> n -> rotation m (rotateYLocal n a s) = rotation m s;
  rotation_setRotation_ne m n q s :
    m <> n -> rotation m (setRotation n q s) = rotation m s;
  getNodeSensors_setRotation m n q s :
    getNodeSensors m (setRotation n q s) = getNodeSensors m s;
  translation_setTransformationFromSpec_ne m p s :
    m <> sensorObject p -> translation m (setTransformationFromSpec p s) = translation m s;
  rotation_setTransformationFromSpec_ne m p s :
    m <> sensorObject p -> rotation m (setTransformationFromSpec p s) = rotation m s
}.

Section FurtherVocabulary.
Context {F Scene NodeRef SensorRef : Type}.
Context `{Scalar F} `{QuaternionMath F}.
Context `{SG : SceneGraph F Scene NodeRef SensorRef}.

(** The text [action] streams into [ESP_ERROR] for an unknown name. *)
Definition unknownActionMessage (actName : string) : string :=
  "Tried to perform unknown action with name " +:+ actName.

(** The agent after [setMoveFilterFunction] was called on its dispatcher. *)
Definition withMoveFilter (this : @Agent F Scene NodeRef)
    (filterFunc : Vector3 F -> Vector3 F -> Vector3 F) : @Agent F Scene NodeRef :=
  mkAgent (node this) (configuration_ this)
          (setMoveFilterFunction (controls_ this) filterFunc) (initialState_ this).

(** The node's translation and rotation relative to its parent. *)
Definition localPose (n : NodeRef) (s : Scene) : Vector3 F * Quaternion F :=
  (translation n s, rotation n s).

End FurtherVocabulary.

Section FurtherScenes.
Local Open Scope R_scope.

(** An action space with an action the dispatcher has no primitive for. *)
Definition customActionSpace : gmap string (@ActionSpec R) :=
  <["jump" := mkActionSpec "jump" {["amount" := 1]}]> demoActionSpace.

Definition customAgent : @Agent R RScene (list nat) :=
  mkAgent [] (mkAgentConfiguration (3 / 2) (1 / 10) customActionSpace)
          ObjectControls_new unitState.

(** A hook that rejects every motion: it answers with the start position. *)
Definition rejectingFilter : Vector3 R -> Vector3 R -> Vector3 R :=
  fun start _end => start.

End FurtherScenes.

(** * Properties of the embedding *)

Section Dispatch.
Context {F Scene NodeRef SensorRef : Type}.
Context `{Scalar F} `{QuaternionMath F}.
Context `{SG : SceneGraph F Scene NodeRef SensorRef}.

#[local] Abbreviation MoveFunc := (NodeRef -> F -> Scene -> Scene).
Implicit Types (w : @World Scene) (s : Scene).

(** ** The effect monad *)

Lemma bind_unfold {A B : Type} (m : @M F Scene A) (f : A -> @M F Scene B) w :
  (m ≫= f) w = match m w with
               | Returned a w' => f a w'
               | Failed e w' => Failed e w'
               end.
Proof. reflexivity. Qed.

Lemma map_at_Some {V : Type} (m : gmap string V) key v w :
  m !! key = Some v -> map_at (F:=F) m key w = Returned v w.
Proof. intros E. unfold map_at. now rewrite E. Qed.

Lemma map_at_None {V : Type} (m : gmap string V) key w :
  m !! key = None -> map_at (F:=F) m key w = Failed (OutOfRange key) w.
Proof. intros E. unfold map_at. now rewrite E. Qed.

(** A loop of scene mutators is a left fold over the scene. *)
Lemma forEach_modifyScene {X : Type} (l : list X) (f : X -> Scene -> Scene) w :
  forEach l (fun x => modifyScene (F:=F) (f x)) w
  = Returned tt (mkWorld (foldl (fun s x => f x s) (scene w) l) (errorLog w)).
Proof.
  revert w. induction l as [|x l IH]; intros w.
  - now destruct w.
  - simpl. rewrite bind_unfold. unfold modifyScene at 1. now rewrite IH.
Qed.

(** A loop whose body cannot fail is a left fold over the world. *)
Lemma forEach_total {X : Type} (l : list X) (body : X -> @M F Scene unit)
    (g : X -> World -> World) w :
  (forall x w', body x w' = Returned tt (g x w')) ->
  forEach l body w = Returned tt (foldl (fun w' x => g x w') w l).
Proof.
  intros Hbody. revert w. induction l as [|x l IH]; intros w; [reflexivity|].
  simpl. rewrite bind_unfold, Hbody. apply IH.
Qed.

(** ** ObjectControls *)

Lemma hasAction_true (this : @Agent F Scene NodeRef) actionName :
  hasAction this actionName = true
  <-> is_Some (actionSpace (configuration_ this) !! actionName).
Proof.
  unfold hasAction. rewrite negb_true_iff, bool_decide_eq_false.
  now rewrite <- not_eq_None_Some.
Qed.

(** The scene produced by [action] does not depend on the error log, and the
    log only grows. *)
Lemma action_scene_irrel (this : ObjectControls) object actName distance applyFilter w1 w2 :
  scene w1 = scene w2 ->
  scene (action this object actName distance applyFilter w1).2
  = scene (action this object actName distance applyFilter w2).2.
Proof.
  intros E. unfold action.
  destruct (moveFuncMap_ this !! actName); [destruct applyFilter|]; simpl; now rewrite ?E.
Qed.

Lemma action_returns_this (this : ObjectControls) object actName distance applyFilter w :
  (action this object actName distance applyFilter w).1 = this.
Proof.
  unfold action.
  now destruct (moveFuncMap_ this !! actName); [destruct applyFilter|].
Qed.

(** The registry built by the constructor has exactly the ten documented
    entries. *)
Lemma ObjectControls_new_registry (actName : string) :
  moveFuncMap_ ObjectControls_new !! actName =
    if decide (actName = "lookDown") then Some lookDown
    else if decide (actName = "lookUp") then Some lookUp
    else if decide (actName = "turnRight") then Some turnRight
    else if decide (actName = "turnLeft") then Some turnLeft
    else if decide (actName = "moveBackward") then Some moveBackward
    else if decide (actName = "moveForward") then Some moveForward
    else if decide (actName = "moveDown") then Some moveDown
    else if decide (actName = "moveUp") then Some moveUp
    else if decide (actName = "moveLeft") then Some moveLeft
    else if decide (actName = "moveRight") then Some moveRight
    else None.
Proof.
  unfold ObjectControls_new; simpl.
  repeat (rewrite lookup_insert; destruct (decide (_ = actName)) as [<-|];
          [reflexivity|]; case_decide; [congruence|]).
  apply lookup_empty.
Qed.

Context {Laws : SceneGraphLaws SG}.

(** C1 (amended): with [applyFilter = true] and a registered name, [action]
    reads the absolute translation (start), runs the primitive in full,
    reads the absolute translation again (end), asks the filter for the
    corrected position, and calls the node's [translate] with
    [corrected - end] on the scene the primitive produced.  Whatever the
    filter answers, the node keeps the rotation the primitive gave it, and
    its translation, which is relative to its parent, is the primitive's
    plus the delta.  For a node without a parent frame, whose absolute
    translation is its own translation, this is an additive translate in
    world space: the absolute translation becomes [end + (corrected - end)]. *)
Theorem action_filtered_steps (this : ObjectControls) (object : NodeRef)
    (actName : string) (moveFunc : MoveFunc) (distance : F) w :
  moveFuncMap_ this !! actName = Some moveFunc ->
  let startPosition := absoluteTranslation object (scene w) in
  let afterPrimitive := moveFunc object distance (scene w) in
  let endPosition := absoluteTranslation object afterPrimitive in
  let corrected := moveFilterFunc_ this startPosition endPosition in
  let r := action this object actName distance true w in
  r = (this, mkWorld (translate object (vsub corrected endPosition) afterPrimitive)
                     (errorLog w))
  /\ rotation object (scene r.2) = rotation object afterPrimitive
  /\ translation object (scene r.2)
     = vadd (translation object afterPrimitive) (vsub corrected endPosition)
  /\ (absoluteTranslation object afterPrimitive = translation object afterPrimitive ->
      absoluteTranslation object (scene r.2) = translation object (scene r.2) ->
      absoluteTranslation object (scene r.2)
      = vadd endPosition (vsub corrected endPosition)).
Proof.
  intros E startPosition afterPrimitive endPosition corrected r.
  assert (Hr : r = (this, mkWorld (translate object (vsub corrected endPosition)
                                     afterPrimitive) (errorLog w))).
  { unfold r, action. now rewrite E. }
  rewrite Hr. simpl. split; [reflexivity|]. split; [|split].
  - apply rotation_translate.
  - apply translation_translate.
  - intros Hend Hfinal. rewrite Hfinal, translation_translate, <- Hend. reflexivity.
Qed.

(** C3: for a name that is not in the registry, [action] appends one message
    to the error channel, leaves the scene as it was, and returns the same
    dispatcher; any later call acts on the scene exactly as it would have
    without the failed one. *)
Theorem action_unknown_name (this : ObjectControls) (object : NodeRef)
    (actName : string) (distance : F) (applyFilter : bool) w :
  moveFuncMap_ this !! actName = None ->
  let r := action this object actName distance applyFilter w in
  r = (this, mkWorld (scene w)
               (errorLog w ++ ["Tried to perform unknown action with name " +:+ actName]))
  /\ forall object' actName' distance' applyFilter',
       (action r.1 object' actName' distance' applyFilter' r.2).1 = this
       /\ scene (action r.1 object' actName' distance' applyFilter' r.2).2
          = scene (action this object' actName' distance' applyFilter' w).2.
Proof.
  intros E r.
  assert (Hr : r = (this, mkWorld (scene w)
             (errorLog w ++ ["Tried to perform unknown action with name " +:+ actName]))).
  { unfold r, action. now rewrite E. }
  split; [exact Hr|]. intros object' actName' distance' applyFilter'.
  rewrite Hr. simpl. split; [apply action_returns_this|].
  now apply action_scene_irrel.
Qed.

End Dispatch.

Section AgentControl.
Context {F Scene NodeRef SensorRef : Type}.
Context `{Scalar F} `{QuaternionMath F}.
Context `{SG : SceneGraph F Scene NodeRef SensorRef}.

Implicit Types (w : @World Scene) (s : Scene).
Implicit Types (this : @Agent F Scene NodeRef) (state : @AgentState F).

(** [BodyActions] holds exactly the six documented names. *)
Lemma BodyActions_closed (actName : string) :
  actName ∈ BodyActions
  <-> actName = "moveRight" \/ actName = "moveLeft" \/ actName = "moveForward"
      \/ actName = "moveBackward" \/ actName = "turnLeft" \/ actName = "turnRight".
Proof. unfold BodyActions. rewrite !elem_of_union, !elem_of_singleton. tauto. Qed.

Lemma act_unconfigured this actionName w :
  actionSpace (configuration_ this) !! actionName = None ->
  act this actionName w = Returned false w.
Proof.
  intros E. unfold act.
  destruct (hasAction this actionName) eqn:Hhas; [|reflexivity].
  apply hasAction_true in Hhas. rewrite E in Hhas. now destruct Hhas.
Qed.

Lemma act_configured this actionName actionSpec w :
  actionSpace (configuration_ this) !! actionName = Some actionSpec ->
  act this actionName w
  = ((if bool_decide (name actionSpec ∈ BodyActions) then
        amount ← map_at (actuation actionSpec) "amount";
        doAction (controls_ this) (node this) (name actionSpec) amount true
      else
        sensors ← readScene (getNodeSensors (node this));
        forEach sensors (fun p =>
          amount ← map_at (actuation actionSpec) "amount";
          doAction (controls_ this) (sensorObject p.2) (name actionSpec) amount false));;
     mret true) w.
Proof.
  intros E. unfold act.
  assert (Hhas : hasAction this actionName = true) by (apply hasAction_true; eauto).
  rewrite Hhas. rewrite (bind_unfold (map_at _ _)), (map_at_Some _ _ _ _ E).
  reflexivity.
Qed.

Lemma act_body this actionName actionSpec amount w :
  actionSpace (configuration_ this) !! actionName = Some actionSpec ->
  actuation actionSpec !! "amount" = Some amount ->
  name actionSpec ∈ BodyActions ->
  act this actionName w = Returned true (bodyActionResult this actionSpec amount w).
Proof.
  intros E Ea Hb. rewrite (act_configured _ _ _ _ E).
  rewrite bool_decide_eq_true_2 by exact Hb.
  rewrite !bind_unfold, (map_at_Some _ _ _ _ Ea). reflexivity.
Qed.

Lemma act_sensors this actionName actionSpec amount w :
  actionSpace (configuration_ this) !! actionName = Some actionSpec ->
  actuation actionSpec !! "amount" = Some amount ->
  name actionSpec ∉ BodyActions ->
  act this actionName w = Returned true (sensorActionResult this actionSpec amount w).
Proof.
  intros E Ea Hb. rewrite (act_configured _ _ _ _ E).
  rewrite bool_decide_eq_false_2 by exact Hb.
  rewrite !bind_unfold. unfold readScene at 1.
  erewrite forEach_total; [reflexivity|].
  intros p w'. now rewrite bind_unfold, (map_at_Some _ _ _ _ Ea).
Qed.

(** C2 (amended): an unconfigured name is not handled and changes nothing.
    A configured action whose actuation holds "amount" is handled: when its
    name is one of the six body actions the dispatcher is called once, on the
    agent's node, filtered; otherwise it is called once per attached sensor,
    on the sensor's node, unfiltered. *)
Theorem act_dispatch this actionName w :
  (actionSpace (configuration_ this) !! actionName = None ->
     act this actionName w = Returned false w)
  /\ (forall actionSpec amount,
        actionSpace (configuration_ this) !! actionName = Some actionSpec ->
        actuation actionSpec !! "amount" = Some amount ->
        (name actionSpec ∈ BodyActions ->
           act this actionName w
           = Returned true
               (action (controls_ this) (node this) (name actionSpec) amount true w).2)
        /\ (name actionSpec ∉ BodyActions ->
              act this actionName w
              = Returned true
                  (foldl (fun w' (p : string * SensorRef) =>
                            (action (controls_ this) (sensorObject p.2)
                                    (name actionSpec) amount false w').2)
                         w (getNodeSensors (node this) (scene w)))))
  /\ (forall actName : string,
        actName ∈ BodyActions
        <-> actName = "moveRight" \/ actName = "moveLeft" \/ actName = "moveForward"
            \/ actName = "moveBackward" \/ actName = "turnLeft" \/ actName = "turnRight").
Proof.
  split; [apply act_unconfigured|]. split; [|apply BodyActions_closed].
  intros actionSpec amount E Ea. split; intros Hb.
  - now apply act_body.
  - now apply act_sensors.
Qed.

(** C9 (amended): for a configured action whose actuation lacks "amount",
    [act] fails with the out-of-range lookup, leaving the world untouched,
    when the action is a body action or at least one sensor is attached; a
    sensor action on an agent without sensors never reaches the lookup and is
    reported as handled. *)
Theorem act_amount_missing this actionName actionSpec w :
  actionSpace (configuration_ this) !! actionName = Some actionSpec ->
  actuation actionSpec !! "amount" = None ->
  (name actionSpec ∈ BodyActions \/ getNodeSensors (node this) (scene w) <> [] ->
     act this actionName w = Failed (OutOfRange "amount") w)
  /\ (name actionSpec ∉ BodyActions -> getNodeSensors (node this) (scene w) = [] ->
        act this actionName w = Returned true w).
Proof.
  intros E Ea. rewrite (act_configured _ _ _ _ E). split.
  - intros Hcase. case_bool_decide as Hb.
    + now rewrite !bind_unfold, (map_at_None _ _ _ Ea).
    + destruct Hcase as [Hb'|Hs]; [contradiction|].
      rewrite !bind_unfold. unfold readScene at 1.
      destruct (getNodeSensors (node this) (scene w)) as [|p l]; [contradiction|].
      simpl. now rewrite !bind_unfold, (map_at_None _ _ _ Ea).
  - intros Hb Hs. rewrite bool_decide_eq_false_2 by exact Hb.
    rewrite !bind_unfold. unfold readScene at 1. now rewrite Hs.
Qed.

(** When every configured action carries "amount", [act] always returns. *)
Lemma act_total this actionName w :
  (forall k actionSpec, actionSpace (configuration_ this) !! k = Some actionSpec ->
                        is_Some (actuation actionSpec !! "amount")) ->
  exists b w', act this actionName w = Returned b w'.
Proof.
  intros Hcfg.
  destruct (actionSpace (configuration_ this) !! actionName) as [actionSpec|] eqn:E.
  - destruct (Hcfg _ _ E) as [amount Ea].
    destruct (decide (name actionSpec ∈ BodyActions)) as [Hb|Hb].
    + eexists _, _. eapply act_body; eassumption.
    + eexists _, _. eapply act_sensors; eassumption.
  - eexists _, _. now apply act_unconfigured.
Qed.

End AgentControl.

Section AgentPose.
Context {F Scene NodeRef SensorRef : Type}.
Context `{Scalar F} `{QuaternionMath F}.
Context `{SG : SceneGraph F Scene NodeRef SensorRef}.

Implicit Types (w : @World Scene) (s : Scene).
Implicit Types (this : @Agent F Scene NodeRef) (state : @AgentState F).

Lemma setState_invalid this state resetSensors w :
  isNormalized (stateQuaternion state) = false ->
  setState this state resetSensors w
  = Failed (NotAValidRotation (state_rotation state))
           (mkWorld (setTranslation (node this) (state_position state) (scene w))
                    (errorLog w)).
Proof.
  intros Hn. unfold setState. rewrite bind_unfold. unfold modifyScene at 1.
  rewrite bind_unfold. fold (stateQuaternion state). now rewrite Hn.
Qed.

Lemma setState_valid this state resetSensors w :
  isNormalized (stateQuaternion state) = true ->
  setState this state resetSensors w
  = Returned tt
      (mkWorld (if resetSensors then sensorsReset this (committedPose this state (scene w))
                else committedPose this state (scene w))
               (errorLog w)).
Proof.
  intros Hn. unfold setState. rewrite bind_unfold. unfold modifyScene at 1.
  rewrite bind_unfold. fold (stateQuaternion state). rewrite Hn. simpl.
  rewrite bind_unfold. unfold modifyScene at 1.
  destruct resetSensors; [|reflexivity].
  rewrite bind_unfold. unfold readScene. now rewrite forEach_modifyScene.
Qed.

Lemma getState_rotation_of_stateQuaternion state :
  vector4_of (qvector (stateQuaternion state)) (qscalar (stateQuaternion state))
  = state_rotation state.
Proof. now destruct state as [p [x y z r]]. Qed.

Context {Laws : SceneGraphLaws SG}.

(** C4: [setState] fails on the rotation assertion exactly when the state's
    quaternion is not normalized; otherwise it returns, having set the node's
    translation and rotation to the state's (and, on request, reset the
    sensors afterwards). *)
Theorem setState_validates_rotation this state resetSensors w :
  (isNormalized (stateQuaternion state) = false ->
     exists w', setState this state resetSensors w
                = Failed (NotAValidRotation (state_rotation state)) w')
  /\ (isNormalized (stateQuaternion state) = true ->
        let committed := committedPose this state (scene w) in
        setState this state resetSensors w
        = Returned tt (mkWorld (if resetSensors then sensorsReset this committed
                                else committed) (errorLog w))
        /\ translation (node this) committed = state_position state
        /\ rotation (node this) committed = stateQuaternion state).
Proof.
  split; intros Hn.
  - eexists. now apply setState_invalid.
  - intros committed. split; [now apply setState_valid|]. unfold committed, committedPose.
    now rewrite translation_setRotation, translation_setTranslation, rotation_setRotation.
Qed.

(** C10: when the rotation is rejected, [setState] has already written the
    translation.  The failure leaves a scene in which the node's translation
    is the state's position, while its rotation, its sensor list and every
    other node's translation and rotation are what they were; if the position
    differs from the old translation the scene has changed. *)
Theorem setState_not_atomic this state resetSensors w :
  isNormalized (stateQuaternion state) = false ->
  let s' := setTranslation (node this) (state_position state) (scene w) in
  setState this state resetSensors w
  = Failed (NotAValidRotation (state_rotation state)) (mkWorld s' (errorLog w))
  /\ translation (node this) s' = state_position state
  /\ rotation (node this) s' = rotation (node this) (scene w)
  /\ getNodeSensors (node this) s' = getNodeSensors (node this) (scene w)
  /\ (forall m, m <> node this ->
        translation m s' = translation m (scene w)
        /\ rotation m s' = rotation m (scene w))
  /\ (translation (node this) (scene w) <> state_position state -> s' <> scene w).
Proof.
  intros Hn s'. split; [now apply setState_invalid|]. unfold s'.
  rewrite translation_setTranslation, rotation_setTranslation,
    getNodeSensors_setTranslation.
  repeat split; [now apply translation_setTranslation_ne
                |apply rotation_setTranslation|].
  intros Hne Heq. apply Hne. rewrite <- Heq at 1. apply translation_setTranslation.
Qed.

(** C6 (amended): when the agent's node is placed so that, after the state
    is written, its absolute translation is its own translation (no parent
    frame, or an untransformed one), [setState] without sensor reset followed
    by [getState] gives back the position and the rotation of a state with a
    normalized rotation. *)
Theorem setState_getState_roundtrip this state (out : AgentState) w :
  isNormalized (stateQuaternion state) = true ->
  absoluteTranslation (node this) (committedPose this state (scene w))
  = translation (node this) (committedPose this state (scene w)) ->
  exists w', setState this state false w = Returned tt w'
             /\ getState this out (scene w') = state.
Proof.
  intros Hn Hroot. eexists. split; [now apply setState_valid|].
  unfold getState. simpl. rewrite Hroot. unfold committedPose.
  rewrite translation_setRotation, translation_setTranslation, rotation_setRotation.
  rewrite getState_rotation_of_stateQuaternion. now destruct state.
Qed.

(** C8 (amended): [moveUp] is one [translate] by [(0, 1, 0) * distance]; it
    adds that vector to the node's translation, which is kept relative to the
    node's parent, leaves the rotation alone, and moves the node the same way
    whatever its rotation is.  For a node without a parent frame, whose
    absolute translation is its own translation, the node moves along the
    world up axis: its absolute translation grows by
    [(0, 1, 0) * distance].  [moveDown] is [moveUp] with the negated
    distance. *)
Theorem moveUp_parent_frame (object : NodeRef) (distance : F) s :
  moveUp object distance s = translate object (vscale (mkVector3 f0 f1 f0) distance) s
  /\ translation object (moveUp object distance s)
     = vadd (translation object s)
            (mkVector3 (fmul f0 distance) (fmul f1 distance) (fmul f0 distance))
  /\ rotation object (moveUp object distance s) = rotation object s
  /\ (forall q, translation object (moveUp object distance (setRotation object q s))
                = translation object (moveUp object distance s))
  /\ moveDown object distance s = moveUp object (fneg distance) s
  /\ (absoluteTranslation object s = translation object s ->
      absoluteTranslation object (moveUp object distance s)
      = translation object (moveUp object distance s) ->
      absoluteTranslation object (moveUp object distance s)
      = vadd (absoluteTranslation object s)
             (mkVector3 (fmul f0 distance) (fmul f1 distance) (fmul f0 distance))).
Proof.
  unfold moveDown, moveUp. repeat split.
  - apply translation_translate.
  - apply rotation_translate.
  - intros q. now rewrite !translation_translate, translation_setRotation.
  - intros Hbefore Hafter. rewrite Hafter, Hbefore. apply translation_translate.
Qed.

(** After a rotation primitive the node's rotation is the output of
    [normalized()]. *)
Lemma turnLeft_rotation (object : NodeRef) (angleInDegrees : F) s :
  rotation object (turnLeft object angleInDegrees s)
  = normalized (rotation object (rotateYLocal object angleInDegrees s)).
Proof. unfold turnLeft. apply rotation_setRotation. Qed.

Lemma lookUp_rotation (object : NodeRef) (angleInDegrees : F) s :
  rotation object (lookUp object angleInDegrees s)
  = normalized (rotation object (rotateXLocal object angleInDegrees s)).
Proof. unfold lookUp. apply rotation_setRotation. Qed.

End AgentPose.

(** * The reference scene graph *)

Section RealModelFacts.
Local Open Scope R_scope.

Implicit Types (s : RScene) (n m : list nat).

Lemma updateNode_same n f s : updateNode n f s n = f (s n).
Proof. unfold updateNode. now rewrite decide_True. Qed.

Lemma updateNode_other n m f s : m <> n -> updateNode n f s m = s m.
Proof. intros Hne. unfold updateNode. now rewrite decide_False. Qed.

#[global] Instance RSceneGraphLaws : SceneGraphLaws RSceneGraph.
Proof.
  split; simpl; intros;
    unfold RsetTranslation, RsetRotation, Rtranslate, updateNode;
    try case_decide; subst; simpl; congruence.
Qed.

(** A parentless node's absolute translation is its own translation. *)
Lemma absoluteTranslation_parentless s :
  absoluteTranslation (SceneGraph:=RSceneGraph) [] s = translation [] s.
Proof.
  simpl. unfold localTransformation, trsMatrix.
  now destruct (nRotation (s [])) as [[x y z] r].
Qed.

Lemma RisNormalized_true q :
  Rabs (qdot q - 1) < 2 * Repsilon -> RisNormalized q = true.
Proof. intros Hq. unfold RisNormalized. now destruct (Rlt_dec _ _). Qed.

Lemma RisNormalized_false q :
  ~ Rabs (qdot q - 1) < 2 * Repsilon -> RisNormalized q = false.
Proof. intros Hq. unfold RisNormalized. now destruct (Rlt_dec _ _). Qed.

Lemma unitState_normalized : isNormalized (stateQuaternion unitState) = true.
Proof.
  apply RisNormalized_true. unfold qdot, Repsilon; simpl.
  replace (0 * 0 + 0 * 0 + 0 * 0 + 1 * 1 - 1) with 0 by lra.
  rewrite Rabs_R0. lra.
Qed.

Lemma movedState_normalized : isNormalized (stateQuaternion movedState) = true.
Proof. exact unitState_normalized. Qed.

Lemma stretchedState_not_normalized : isNormalized (stateQuaternion stretchedState) = false.
Proof.
  apply RisNormalized_false. unfold qdot, Repsilon; simpl.
  replace (0 * 0 + 0 * 0 + 0 * 0 + 2 * 2 - 1) with 3 by lra.
  rewrite Rabs_pos_eq; lra.
Qed.

End RealModelFacts.

(** * The code on concrete scenes *)

(** Unfold everything but the arithmetic of the reals. *)
Ltac real_eval :=
  cbv -[Rplus Rminus Rmult Ropp Rdiv Rinv IZR Rabs Rlt_dec sqrt sin cos PI].

Section Scenarios.
Local Open Scope R_scope.

Lemma moveForward_is_body : "moveForward" ∈ BodyActions.
Proof. apply BodyActions_closed. tauto. Qed.

Lemma lookUp_is_not_body : "lookUp" ∉ BodyActions.
Proof. intros Hin. apply BodyActions_closed in Hin. intuition discriminate. Qed.

(** A rejected "moveForward" on a node without a parent: the primitive takes
    the node from the origin to [(0, 0, -1)], the hook answers with the
    start, and the correction brings the node back to the origin, its
    rotation untouched. *)
Lemma action_filtered_steps_witness :
  moveFuncMap_ (setMoveFilterFunction (ObjectControls_new (SG:=RSceneGraph)) rejectingFilter)
    !! "moveForward" = Some moveForward
  /\ absoluteTranslation [] (moveForward (SG:=RSceneGraph) [] 1 emptyScene)
     = mkVector3 0 0 (-1)
  /\ absoluteTranslation []
       (scene (action (setMoveFilterFunction ObjectControls_new rejectingFilter) []
                      "moveForward" 1 true world0).2)
     = mkVector3 0 0 0
  /\ rotation []
       (scene (action (setMoveFilterFunction ObjectControls_new rejectingFilter) []
                      "moveForward" 1 true world0).2)
     = mkQuaternion (mkVector3 0 0 0) 1.
Proof.
  split; [reflexivity|].
  destruct (action_filtered_steps
              (setMoveFilterFunction ObjectControls_new rejectingFilter) []
              "moveForward" moveForward 1 world0 eq_refl)
    as (_ & Hrot & _ & Habs).
  split; [real_eval; f_equal; lra|]. split.
  - rewrite (Habs (absoluteTranslation_parentless _) (absoluteTranslation_parentless _)).
    real_eval. f_equal; lra.
  - rewrite Hrot. reflexivity.
Defined.

(** C1 fails as stated: the node [[0]] hangs under a parent turned upside
    down, and the hook rejects the motion.  "moveForward" by one unit takes
    the node from the world origin to [(0, 0, 1)]; the hook answers with the
    origin; the delta [(0, 0, -1)] is added in the parent's frame, and the
    node ends at [(0, 0, 2)] in the world, not at
    [end + (corrected - end)]. *)
Lemma action_filtered_under_flipped_parent_overshoots :
  let ctl := setMoveFilterFunction (ObjectControls_new (SG:=RSceneGraph)) rejectingFilter in
  let w := mkWorld flippedParentScene [] in
  let startPosition := absoluteTranslation [0%nat] flippedParentScene in
  let endPosition :=
    absoluteTranslation [0%nat] (moveForward (SG:=RSceneGraph) [0%nat] 1 flippedParentScene) in
  let corrected := moveFilterFunc_ ctl startPosition endPosition in
  let final := absoluteTranslation [0%nat] (scene (action ctl [0%nat] "moveForward" 1 true w).2) in
  startPosition = mkVector3 0 0 0
  /\ endPosition = mkVector3 0 0 1
  /\ corrected = mkVector3 0 0 0
  /\ final = mkVector3 0 0 2
  /\ final <> vadd endPosition (vsub corrected endPosition).
Proof.
  intros ctl w startPosition endPosition corrected final.
  assert (Hs : startPosition = mkVector3 0 0 0) by (real_eval; f_equal; lra).
  assert (He : endPosition = mkVector3 0 0 1) by (real_eval; f_equal; lra).
  assert (Hc : corrected = mkVector3 0 0 0) by exact Hs.
  assert (Hact : scene (action ctl [0%nat] "moveForward" 1 true w).2
                 = translate [0%nat] (vsub corrected endPosition)
                     (moveForward [0%nat] 1 flippedParentScene)) by reflexivity.
  assert (Hf : final = mkVector3 0 0 2).
  { unfold final. rewrite Hact. unfold corrected, endPosition, startPosition, ctl.
    change (moveFilterFunc_ (setMoveFilterFunction ObjectControls_new rejectingFilter))
      with rejectingFilter.
    real_eval. f_equal; lra. }
  split; [exact Hs|]. split; [exact He|]. split; [exact Hc|]. split; [exact Hf|].
  rewrite Hf, He, Hc. intros Heq. apply (f_equal vz) in Heq. simpl in Heq. lra.
Qed.

Lemma action_unknown_name_witness :
  moveFuncMap_ (ObjectControls_new (SG:=RSceneGraph)) !! "jump" = None
  /\ action ObjectControls_new [] "jump" 1 true world0
     = (ObjectControls_new,
        mkWorld emptyScene ["Tried to perform unknown action with name jump"]).
Proof.
  split; [reflexivity|].
  exact (proj1 (action_unknown_name ObjectControls_new [] "jump" 1 true world0 eq_refl)).
Defined.

Lemma act_dispatch_witness :
  act demoAgent "moveForward" world0
  = Returned true (action ObjectControls_new [] "moveForward" (1 / 4) true world0).2
  /\ act demoAgent "lookUp" (mkWorld sceneWithSensors [])
     = Returned true
         (action ObjectControls_new [0%nat] "lookUp" 10 false
            (action ObjectControls_new [1%nat] "lookUp" 10 false
               (mkWorld sceneWithSensors [])).2).2
  /\ act demoAgent "fly" world0 = Returned false world0.
Proof.
  split; [|split].
  - destruct (act_dispatch demoAgent "moveForward" world0) as (_ & Hspec & _).
    exact (proj1 (Hspec (mkActionSpec "moveForward" {["amount" := 1 / 4]}) (1 / 4)
                    eq_refl eq_refl) moveForward_is_body).
  - destruct (act_dispatch demoAgent "lookUp" (mkWorld sceneWithSensors []))
      as (_ & Hspec & _).
    exact (proj2 (Hspec (mkActionSpec "lookUp" {["amount" := 10]}) 10
                    eq_refl eq_refl) lookUp_is_not_body).
  - destruct (act_dispatch demoAgent "fly" world0) as (Hnone & _).
    exact (Hnone eq_refl).
Defined.

(** C2 fails as stated: "moveForward" is configured and is a body action,
    but its actuation has no "amount", and [act] does not return. *)
Lemma act_body_without_amount_fails :
  actionSpace (configuration_ bareAgent) !! "moveForward"
  = Some (mkActionSpec "moveForward" ∅)
  /\ "moveForward" ∈ BodyActions
  /\ act bareAgent "moveForward" world0 = Failed (OutOfRange "amount") world0
  /\ ~ exists w', act bareAgent "moveForward" world0 = Returned true w'.
Proof.
  assert (Hfail : act bareAgent "moveForward" world0 = Failed (OutOfRange "amount") world0).
  { rewrite (act_configured bareAgent "moveForward" (mkActionSpec "moveForward" ∅) world0
               eq_refl).
    rewrite bool_decide_eq_true_2 by exact moveForward_is_body. reflexivity. }
  split; [reflexivity|]. split; [exact moveForward_is_body|]. split; [exact Hfail|].
  intros [w' Hret]. rewrite Hfail in Hret. discriminate.
Qed.

Lemma act_amount_missing_witness :
  act bareAgent "moveForward" world0 = Failed (OutOfRange "amount") world0
  /\ act bareAgent "lookUp" (mkWorld sceneWithSensors [])
     = Failed (OutOfRange "amount") (mkWorld sceneWithSensors [])
  /\ act bareAgent "lookUp" world0 = Returned true world0.
Proof.
  split; [|split].
  - apply (act_amount_missing bareAgent "moveForward" (mkActionSpec "moveForward" ∅)
             world0 eq_refl eq_refl).
    left. exact moveForward_is_body.
  - apply (act_amount_missing bareAgent "lookUp" (mkActionSpec "lookUp" ∅)
             (mkWorld sceneWithSensors []) eq_refl eq_refl).
    right. discriminate.
  - apply (act_amount_missing bareAgent "lookUp" (mkActionSpec "lookUp" ∅)
             world0 eq_refl eq_refl); [exact lookUp_is_not_body|reflexivity].
Defined.

(** C9 fails as stated: "lookUp" is configured without "amount", yet on an
    agent without sensors [act] returns [true]. *)
Lemma act_sensorless_without_amount_returns :
  actionSpace (configuration_ bareAgent) !! "lookUp" = Some (mkActionSpec "lookUp" ∅)
  /\ actuation (mkActionSpec (F:=R) "lookUp" ∅) !! "amount" = None
  /\ act bareAgent "lookUp" world0 = Returned true world0.
Proof.
  split; [reflexivity|]. split; [reflexivity|].
  rewrite (act_configured bareAgent "lookUp" (mkActionSpec "lookUp" ∅) world0 eq_refl).
  rewrite bool_decide_eq_false_2 by exact lookUp_is_not_body. reflexivity.
Qed.

Lemma setState_validates_rotation_witness :
  (exists w', setState demoAgent stretchedState true world0
              = Failed (NotAValidRotation (mkVector4 0 0 0 2)) w')
  /\ setState demoAgent unitState false world0
     = Returned tt (mkWorld (committedPose demoAgent unitState emptyScene) []).
Proof.
  split.
  - exact (proj1 (setState_validates_rotation demoAgent stretchedState true world0)
                 stretchedState_not_normalized).
  - exact (proj1 (proj2 (setState_validates_rotation demoAgent unitState false world0)
                        unitState_normalized)).
Defined.

Lemma setState_not_atomic_witness :
  isNormalized (stateQuaternion stretchedState) = false
  /\ setState demoAgent stretchedState true world0
     = Failed (NotAValidRotation (mkVector4 0 0 0 2))
              (mkWorld (setTranslation [] (mkVector3 5 0 0) emptyScene) [])
  /\ translation [] (setTranslation (SceneGraph:=RSceneGraph) [] (mkVector3 5 0 0) emptyScene)
     = mkVector3 5 0 0.
Proof.
  split; [exact stretchedState_not_normalized|].
  destruct (setState_not_atomic demoAgent stretchedState true world0
              stretchedState_not_normalized) as (Hfail & Htr & _).
  split; [exact Hfail|exact Htr].
Defined.

(** An agent under an untransformed parent, written to [(5, 0, 0)] with the
    identity rotation, reads back the same state. *)
Lemma setState_getState_roundtrip_witness :
  exists w', setState nestedAgent movedState false world0 = Returned tt w'
             /\ getState nestedAgent unitState (scene w') = movedState.
Proof.
  apply (setState_getState_roundtrip nestedAgent movedState unitState world0
           movedState_normalized).
  real_eval. f_equal; lra.
Defined.

(** C6 fails as stated: the agent's node [[0]] hangs under a parent that
    sits at [(1, 0, 0)].  [setState] writes the position [(0, 0, 0)] relative
    to the parent; [getState] reads the absolute translation [(1, 0, 0)]. *)
Lemma setState_getState_nested_differs :
  isNormalized (stateQuaternion unitState) = true
  /\ exists w', setState nestedAgent unitState false (mkWorld shiftedParentScene [])
                = Returned tt w'
       /\ state_position (getState nestedAgent unitState (scene w')) = mkVector3 1 0 0
       /\ getState nestedAgent unitState (scene w') <> unitState.
Proof.
  split; [exact unitState_normalized|]. eexists. split.
  - apply setState_valid. exact unitState_normalized.
  - assert (Hpos : state_position
                     (getState nestedAgent unitState
                        (committedPose nestedAgent unitState shiftedParentScene))
                   = mkVector3 1 0 0).
    { real_eval. f_equal; lra. }
    split; [exact Hpos|]. intros Heq.
    apply (f_equal (fun st => vx (state_position st))) in Heq.
    change (vx (state_position
                  (getState nestedAgent unitState
                     (committedPose nestedAgent unitState shiftedParentScene))) = 0)
      in Heq.
    rewrite Hpos in Heq. simpl in Heq. lra.
Qed.

Lemma moveUp_parent_frame_witness :
  translation [0%nat] (moveUp (SG:=RSceneGraph) [0%nat] 1 flippedParentScene)
  = mkVector3 (0 + 0 * 1) (0 + 1 * 1) (0 + 0 * 1)
  /\ rotation [0%nat] (moveUp (SG:=RSceneGraph) [0%nat] 1 flippedParentScene)
     = mkQuaternion (mkVector3 0 0 0) 1
  /\ absoluteTranslation [] (moveUp (SG:=RSceneGraph) [] 1 flippedParentScene)
     = vadd (absoluteTranslation [] flippedParentScene)
            (mkVector3 (0 * 1) (1 * 1) (0 * 1)).
Proof.
  destruct (moveUp_parent_frame (Laws:=RSceneGraphLaws) [0%nat] 1 flippedParentScene)
    as (_ & Htr & Hrot & _).
  destruct (moveUp_parent_frame (Laws:=RSceneGraphLaws) [] 1 flippedParentScene)
    as (_ & _ & _ & _ & _ & Habs).
  split; [exact Htr|]. split; [exact Hrot|].
  exact (Habs (absoluteTranslation_parentless _) (absoluteTranslation_parentless _)).
Defined.

(** C8 fails as stated: the node [[0]] hangs under a parent turned upside
    down.  [moveUp] by one unit adds [(0, 1, 0)] to the translation relative
    to the parent; in the world the node goes from the origin to
    [(0, -1, 0)]. *)
Lemma moveUp_under_flipped_parent_descends :
  absoluteTranslation [0%nat] flippedParentScene = mkVector3 0 0 0
  /\ absoluteTranslation [0%nat] (moveUp (SG:=RSceneGraph) [0%nat] 1 flippedParentScene)
     = mkVector3 0 (-1) 0
  /\ absoluteTranslation [0%nat] (moveUp (SG:=RSceneGraph) [0%nat] 1 flippedParentScene)
     <> vadd (absoluteTranslation [0%nat] flippedParentScene) (mkVector3 0 1 0).
Proof.
  assert (H0 : absoluteTranslation [0%nat] flippedParentScene = mkVector3 0 0 0).
  { real_eval. f_equal; lra. }
  assert (H1 : absoluteTranslation [0%nat]
                 (moveUp (SG:=RSceneGraph) [0%nat] 1 flippedParentScene)
               = mkVector3 0 (-1) 0).
  { real_eval. f_equal; lra. }
  split; [exact H0|]. split; [exact H1|].
  rewrite H0, H1. intros Heq. apply (f_equal vy) in Heq. simpl in Heq. lra.
Qed.

End Scenarios.

(** * The primitives in exact arithmetic

    What the sign-inverse and re-normalisation conventions of the primitives
    amount to when the arithmetic is exact.  Rounding is outside this
    model. *)

Section ExactArithmetic.
Local Open Scope R_scope.

Implicit Types (s : RScene) (n m : list nat) (p q : Quaternion R).

Lemma vector3_eq (a b : Vector3 R) :
  vx a = vx b -> vy a = vy b -> vz a = vz b -> a = b.
Proof. destruct a, b; simpl; congruence. Qed.

Lemma quaternion_eq p q :
  qvector p = qvector q -> qscalar p = qscalar q -> p = q.
Proof. destruct p, q; simpl; congruence. Qed.

(** Two translations of one node that cancel. *)
Lemma Rtranslate_cancel n (u v : Vector3 R) s m :
  vx u + vx v = 0 -> vy u + vy v = 0 -> vz u + vz v = 0 ->
  Rtranslate n v (Rtranslate n u s) m = s m.
Proof.
  intros Hx Hy Hz. unfold Rtranslate, updateNode.
  case_decide; [subst m|reflexivity]. simpl.
  destruct (s n) as [[tx ty tz] r k l]; simpl.
  f_equal. apply vector3_eq; simpl; lra.
Qed.

(** A translation does not turn the node's axes. *)
Lemma localTransformation_Rtranslate n v s :
  m_right (localTransformation n (Rtranslate n v s)) = m_right (localTransformation n s)
  /\ m_backward (localTransformation n (Rtranslate n v s))
     = m_backward (localTransformation n s).
Proof.
  unfold localTransformation, Rtranslate. rewrite updateNode_same. simpl.
  now destruct (nRotation (s n)) as [[x y z] r].
Qed.

Lemma qdot_nonneg q : 0 <= qdot q.
Proof. unfold qdot. nra. Qed.

(** The squared length is multiplicative. *)
Lemma qdot_qmul p q : qdot (qmul p q) = qdot p * qdot q.
Proof. destruct p as [[px py pz] ps], q as [[qx qy qz] qs]. unfold qdot; simpl. ring. Qed.

Lemma qmul_assoc p q r : qmul (qmul p q) r = qmul p (qmul q r).
Proof.
  destruct p as [[px py pz] ps], q as [[qx qy qz] qs], r as [[rx ry rz] rs].
  apply quaternion_eq; [apply vector3_eq|]; simpl; ring.
Qed.

Lemma qmul_identity_r q : qmul q (mkQuaternion (mkVector3 0 0 0) 1) = q.
Proof.
  destruct q as [[x y z] r]. apply quaternion_eq; [apply vector3_eq|]; simpl; ring.
Qed.

Lemma sin_cos_unit (h : R) : sin h * sin h + cos h * cos h = 1.
Proof. pose proof (sin2_cos2 h) as Hsc. unfold Rsqr in Hsc. exact Hsc. Qed.

Lemma half_angle_neg (a : R) : - a * PI / 180 / 2 = - (a * PI / 180 / 2).
Proof. lra. Qed.

(** An axis rotation is a unit quaternion. *)
Lemma qdot_qrotationDeg a (axis : Vector3 R) :
  vx axis * vx axis + vy axis * vy axis + vz axis * vz axis = 1 ->
  qdot (qrotationDeg a axis) = 1.
Proof.
  intros Haxis. unfold qrotationDeg, qdot; simpl.
  pose proof (sin_cos_unit (a * PI / 180 / 2)) as Hsc. nra.
Qed.

(** Rotating back by the same angle undoes an axis rotation. *)
Lemma qrotationDeg_inverse a (axis : Vector3 R) :
  vx axis * vx axis + vy axis * vy axis + vz axis * vz axis = 1 ->
  qmul (qrotationDeg a axis) (qrotationDeg (- a) axis)
  = mkQuaternion (mkVector3 0 0 0) 1.
Proof.
  intros Haxis. unfold qrotationDeg. destruct axis as [ax ay az]; simpl in *.
  rewrite half_angle_neg, sin_neg, cos_neg.
  pose proof (sin_cos_unit (a * PI / 180 / 2)) as Hsc.
  apply quaternion_eq; [apply vector3_eq|]; simpl; nra.
Qed.

(** [normalized()] returns a unit quaternion unless it is given zero. *)
Lemma qdot_Rnormalized q : qdot q <> 0 -> qdot (Rnormalized q) = 1.
Proof.
  intros Hq. pose proof (qdot_nonneg q) as Hpos.
  assert (Hs : sqrt (qdot q) * sqrt (qdot q) = qdot q) by (apply sqrt_sqrt; lra).
  assert (Hs0 : sqrt (qdot q) <> 0) by (intros E; rewrite E in Hs; lra).
  unfold Rnormalized, qdiv. destruct q as [[x y z] r]. unfold qdot in *; simpl in *.
  set (l := sqrt (x * x + y * y + z * z + r * r)) in *.
  replace (x / l * (x / l) + y / l * (y / l) + z / l * (z / l) + r / l * (r / l))
    with ((x * x + y * y + z * z + r * r) / (l * l)) by (field; exact Hs0).
  rewrite Hs. field. lra.
Qed.

(** [normalized()] leaves a unit quaternion as it is. *)
Lemma Rnormalized_unit q : qdot q = 1 -> Rnormalized q = q.
Proof.
  intros Hq. unfold Rnormalized. rewrite Hq, sqrt_1.
  destruct q as [[x y z] r]. apply quaternion_eq; [apply vector3_eq|]; simpl; lra.
Qed.

Lemma xAxis_unit : vx xAxis * vx xAxis + vy xAxis * vy xAxis + vz xAxis * vz xAxis = 1.
Proof. simpl. lra. Qed.

Lemma yAxis_unit : vx yAxis * vx yAxis + vy yAxis * vy yAxis + vz yAxis * vz yAxis = 1.
Proof. simpl. lra. Qed.

Lemma turnLeft_rotateAndNormalize n a s :
  turnLeft (SG:=RSceneGraph) n a s = rotateAndNormalize yAxis n a s.
Proof. reflexivity. Qed.

Lemma lookUp_rotateAndNormalize n a s :
  lookUp (SG:=RSceneGraph) n a s = rotateAndNormalize xAxis n a s.
Proof. reflexivity. Qed.

Lemma rotateAndNormalize_node axis n a s m :
  rotateAndNormalize axis n a s m
  = if decide (m = n) then
      mkNodeData (nTranslation (s n))
                 (Rnormalized (qmul (nRotation (s n)) (qrotationDeg a axis)))
                 (nScaling (s n)) (nSensors (s n))
    else s m.
Proof.
  unfold rotateAndNormalize, RsetRotation, RrotateLocal, updateNode.
  case_decide; [subst m|reflexivity]. now rewrite !decide_True by reflexivity.
Qed.

Lemma rotateAndNormalize_node_ne axis n a s m :
  m <> n -> rotateAndNormalize axis n a s m = s m.
Proof. intros Hne. now rewrite rotateAndNormalize_node, decide_False. Qed.

Lemma rotateAndNormalize_normalized axis n a s :
  vx axis * vx axis + vy axis * vy axis + vz axis * vz axis = 1 ->
  qdot (nRotation (s n)) <> 0 ->
  RisNormalized (nRotation (rotateAndNormalize axis n a s n)) = true.
Proof.
  intros Haxis Hq. apply RisNormalized_true.
  rewrite rotateAndNormalize_node, decide_True by reflexivity.
  cbn [nRotation]. rewrite qdot_Rnormalized.
  - replace (1 - 1) with 0 by lra. rewrite Rabs_R0. unfold Repsilon. lra.
  - rewrite qdot_qmul, (qdot_qrotationDeg _ _ Haxis). lra.
Qed.

Lemma rotateAndNormalize_inverse axis n a s m :
  vx axis * vx axis + vy axis * vy axis + vz axis * vz axis = 1 ->
  qdot (nRotation (s n)) = 1 ->
  rotateAndNormalize axis n (- a) (rotateAndNormalize axis n a s) m = s m.
Proof.
  intros Haxis Hq.
  assert (H1 : qdot (qmul (nRotation (s n)) (qrotationDeg a axis)) = 1).
  { rewrite qdot_qmul, Hq, (qdot_qrotationDeg _ _ Haxis). lra. }
  rewrite rotateAndNormalize_node. case_decide; [subst m|apply rotateAndNormalize_node_ne].
  - rewrite rotateAndNormalize_node, decide_True by reflexivity.
    cbn [nTranslation nRotation nScaling nSensors].
    rewrite (Rnormalized_unit _ H1), qmul_assoc, (qrotationDeg_inverse _ _ Haxis),
      qmul_identity_r, (Rnormalized_unit _ Hq).
    now destruct (s n).
  - assumption.
Qed.

(** In exact arithmetic a rotation primitive leaves a rotation that passes
    [isNormalized()], whatever non-zero rotation the node had before. *)
Theorem rotation_primitives_normalize n a s :
  qdot (rotation n s) <> 0 ->
  isNormalized (rotation n (turnLeft n a s)) = true
  /\ isNormalized (rotation n (turnRight n a s)) = true
  /\ isNormalized (rotation n (lookUp n a s)) = true
  /\ isNormalized (rotation n (lookDown n a s)) = true.
Proof.
  intros Hq. unfold turnRight, lookDown.
  rewrite !turnLeft_rotateAndNormalize, !lookUp_rotateAndNormalize. simpl.
  repeat split; apply rotateAndNormalize_normalized;
    auto using xAxis_unit, yAxis_unit.
Qed.

(** In exact arithmetic every movement primitive is undone by its opposite,
    at every node of the scene. *)
Theorem movement_primitives_round_trip n d s m :
  moveLeft n d (moveRight n d s) m = s m
  /\ moveRight n d (moveLeft n d s) m = s m
  /\ moveForward n d (moveBackward n d s) m = s m
  /\ moveBackward n d (moveForward n d s) m = s m
  /\ moveDown n d (moveUp n d s) m = s m
  /\ moveUp n d (moveDown n d s) m = s m.
Proof.
  unfold moveLeft, moveForward, moveDown, moveRight, moveBackward, moveUp. simpl.
  pose proof (localTransformation_Rtranslate n) as Hax.
  repeat split;
    rewrite ?(proj1 (Hax _ _)), ?(proj2 (Hax _ _));
    apply Rtranslate_cancel; simpl; lra.
Qed.

(** In exact arithmetic every rotation primitive is undone by its opposite,
    provided the node's rotation was a unit quaternion. *)
Theorem rotation_primitives_round_trip n a s m :
  qdot (rotation n s) = 1 ->
  turnRight n a (turnLeft n a s) m = s m
  /\ lookDown n a (lookUp n a s) m = s m.
Proof.
  intros Hq. unfold turnRight, lookDown.
  rewrite !turnLeft_rotateAndNormalize, !lookUp_rotateAndNormalize.
  split; apply rotateAndNormalize_inverse; auto using xAxis_unit, yAxis_unit.
Qed.

End ExactArithmetic.

(** * Further properties of the dispatcher and the agent *)

Section DispatchCoverage.
Context {F Scene NodeRef SensorRef : Type}.
Context `{Scalar F} `{QuaternionMath F}.
Context `{SG : SceneGraph F Scene NodeRef SensorRef}.

#[local] Abbreviation MoveFunc := (NodeRef -> F -> Scene -> Scene).
Implicit Types (w : @World Scene) (s : Scene).
Implicit Types (this : @Agent F Scene NodeRef) (state : @AgentState F).

(** ** Failure of [act] *)

(** What [act] does for a configured action without "amount". *)
Lemma act_without_amount this actionName actionSpec w :
  actionSpace (configuration_ this) !! actionName = Some actionSpec ->
  actuation actionSpec !! "amount" = None ->
  act this actionName w
  = if bool_decide (name actionSpec ∈ BodyActions) then Failed (OutOfRange "amount") w
    else match getNodeSensors (node this) (scene w) with
         | [] => Returned true w
         | _ :: _ => Failed (OutOfRange "amount") w
         end.
Proof.
  intros E Ea. rewrite (act_configured _ _ _ _ E). case_bool_decide as Hb.
  - now rewrite !bind_unfold, (map_at_None _ _ _ Ea).
  - rewrite !bind_unfold. unfold readScene at 1.
    destruct (getNodeSensors (node this) (scene w)) as [|p l]; [reflexivity|].
    simpl. now rewrite !bind_unfold, (map_at_None _ _ _ Ea).
Qed.

(** X1: whenever [act] fails, the failure is the missing "amount" and the
    world is exactly the one [act] was called in: no node has moved and
    nothing was reported. *)
Theorem act_failure_is_atomic this actionName w e w' :
  act this actionName w = Failed e w' ->
  e = OutOfRange "amount" /\ w' = w.
Proof.
  intros Hfail.
  destruct (actionSpace (configuration_ this) !! actionName) as [actionSpec|] eqn:E.
  - destruct (actuation actionSpec !! "amount") as [amount|] eqn:Ea.
    + destruct (decide (name actionSpec ∈ BodyActions)) as [Hb|Hb].
      * rewrite (act_body _ _ _ _ _ E Ea Hb) in Hfail. discriminate.
      * rewrite (act_sensors _ _ _ _ _ E Ea Hb) in Hfail. discriminate.
    + rewrite (act_without_amount _ _ _ _ E Ea) in Hfail.
      case_bool_decide; [now injection Hfail as <- <-|].
      destruct (getNodeSensors (node this) (scene w)); [discriminate|].
      now injection Hfail as <- <-.
  - rewrite (act_unconfigured _ _ _ E) in Hfail. discriminate.
Qed.

(** X2: the boolean [act] returns is [hasAction] of the name, and a call
    that returns [false] has changed nothing. *)
Theorem act_reports_hasAction this actionName w b w' :
  act this actionName w = Returned b w' ->
  b = hasAction this actionName /\ (b = false -> w' = w).
Proof.
  unfold act. destruct (hasAction this actionName).
  - rewrite bind_unfold.
    destruct (map_at _ _ w) as [actionSpec w1|e w1]; [|discriminate].
    rewrite bind_unfold.
    match goal with |- context [match ?m w1 with _ => _ end] => destruct (m w1) end;
      [|discriminate].
    intros [= <- <-]. split; [reflexivity|discriminate].
  - intros [= <- <-]. split; reflexivity.
Qed.

(** ** Actions the dispatcher does not know *)

Lemma foldl_action_unknown (ctl : ObjectControls) (actName : string) (distance : F)
    (l : list (string * SensorRef)) w :
  moveFuncMap_ ctl !! actName = None ->
  foldl (fun w' (p : string * SensorRef) =>
           (action ctl (sensorObject p.2) actName distance false w').2) w l
  = mkWorld (scene w)
            (errorLog w ++ replicate (length l) (unknownActionMessage actName)).
Proof.
  intros E. revert w. induction l as [|p l IH]; intros w; simpl.
  - rewrite app_nil_r. now destruct w.
  - rewrite IH. unfold action. rewrite E. simpl.
    now rewrite <- app_assoc.
Qed.

(** X3: a configured action that is neither a body action nor a name of the
    registry is still reported as handled: no node moves, and the error
    channel receives one message per attached sensor. *)
Theorem act_unregistered_action this actionName actionSpec amount w :
  actionSpace (configuration_ this) !! actionName = Some actionSpec ->
  actuation actionSpec !! "amount" = Some amount ->
  name actionSpec ∉ BodyActions ->
  moveFuncMap_ (controls_ this) !! name actionSpec = None ->
  act this actionName w
  = Returned true
      (mkWorld (scene w)
               (errorLog w
                ++ replicate (length (getNodeSensors (node this) (scene w)))
                             (unknownActionMessage (name actionSpec)))).
Proof.
  intros E Ea Hb Hreg. rewrite (act_sensors _ _ _ _ _ E Ea Hb).
  unfold sensorActionResult. now rewrite foldl_action_unknown.
Qed.

(** ** The registry of the constructor *)

(** X4: the constructor registers the ten primitives under their own names
    and nothing else; in particular every body action has a primitive. *)
Theorem ObjectControls_new_names (actName : string) :
  (is_Some (moveFuncMap_ ObjectControls_new !! actName)
   <-> actName ∈ ["moveRight"; "moveLeft"; "moveUp"; "moveDown"; "moveForward";
                  "moveBackward"; "turnLeft"; "turnRight"; "lookUp"; "lookDown"])
  /\ (actName ∈ BodyActions -> is_Some (moveFuncMap_ ObjectControls_new !! actName))
  /\ moveFuncMap_ ObjectControls_new !! "moveRight" = Some moveRight
  /\ moveFuncMap_ ObjectControls_new !! "moveLeft" = Some moveLeft
  /\ moveFuncMap_ ObjectControls_new !! "moveUp" = Some moveUp
  /\ moveFuncMap_ ObjectControls_new !! "moveDown" = Some moveDown
  /\ moveFuncMap_ ObjectControls_new !! "moveForward" = Some moveForward
  /\ moveFuncMap_ ObjectControls_new !! "moveBackward" = Some moveBackward
  /\ moveFuncMap_ ObjectControls_new !! "turnLeft" = Some turnLeft
  /\ moveFuncMap_ ObjectControls_new !! "turnRight" = Some turnRight
  /\ moveFuncMap_ ObjectControls_new !! "lookUp" = Some lookUp
  /\ moveFuncMap_ ObjectControls_new !! "lookDown" = Some lookDown.
Proof.
  assert (Hdom : is_Some (moveFuncMap_ ObjectControls_new !! actName)
            <-> actName ∈ ["moveRight"; "moveLeft"; "moveUp"; "moveDown"; "moveForward";
                           "moveBackward"; "turnLeft"; "turnRight"; "lookUp"; "lookDown"]).
  { rewrite ObjectControls_new_registry, !elem_of_cons, elem_of_nil.
    repeat case_decide; subst;
      (split; [intros Hs; try tauto; destruct Hs; discriminate
              |intros Hin; try (eexists; reflexivity); exfalso; tauto]). }
  split; [exact Hdom|]. split.
  - intros Hb. apply Hdom. apply BodyActions_closed in Hb.
    rewrite !elem_of_cons. tauto.
  - repeat split; now rewrite ObjectControls_new_registry.
Qed.

(** ** The hook *)

(** X5: [setMoveFilterFunction] replaces the hook and nothing else: the
    registry is the same, a second call overrides the first, and a call of
    [action] without filtering gives the same result whatever hook is
    installed. *)
Theorem setMoveFilterFunction_replaces_hook (ctl : ObjectControls)
    (f g : Vector3 F -> Vector3 F -> Vector3 F) (object : NodeRef) (actName : string)
    (distance : F) w :
  moveFuncMap_ (setMoveFilterFunction ctl f) = moveFuncMap_ ctl
  /\ moveFilterFunc_ (setMoveFilterFunction ctl f) = f
  /\ setMoveFilterFunction (setMoveFilterFunction ctl f) g = setMoveFilterFunction ctl g
  /\ (action (setMoveFilterFunction ctl f) object actName distance false w).2
     = (action ctl object actName distance false w).2.
Proof.
  repeat split. unfold action. simpl.
  now destruct (moveFuncMap_ ctl !! actName).
Qed.

Lemma foldl_action_unfiltered_hook (ctl : ObjectControls)
    (f : Vector3 F -> Vector3 F -> Vector3 F) (actName : string) (distance : F)
    (l : list (string * SensorRef)) w :
  foldl (fun w' (p : string * SensorRef) =>
           (action (setMoveFilterFunction ctl f) (sensorObject p.2) actName distance
                   false w').2) w l
  = foldl (fun w' (p : string * SensorRef) =>
             (action ctl (sensorObject p.2) actName distance false w').2) w l.
Proof.
  revert w. induction l as [|p l IH]; intros w; simpl; [reflexivity|].
  rewrite IH. f_equal. unfold action. simpl.
  now destruct (moveFuncMap_ ctl !! actName).
Qed.

(** X6: a sensor action is never deflected by the hook: for a configured
    action that is not a body action, [act] gives the same outcome whatever
    hook is installed on the agent's dispatcher. *)
Theorem act_sensor_action_ignores_hook this
    (f : Vector3 F -> Vector3 F -> Vector3 F) actionName actionSpec w :
  actionSpace (configuration_ this) !! actionName = Some actionSpec ->
  name actionSpec ∉ BodyActions ->
  act (withMoveFilter this f) actionName w = act this actionName w.
Proof.
  intros E Hb.
  destruct (actuation actionSpec !! "amount") as [amount|] eqn:Ea.
  - rewrite (act_sensors this _ _ _ _ E Ea Hb).
    rewrite (act_sensors (withMoveFilter this f) _ _ _ _ E Ea Hb).
    unfold sensorActionResult. simpl. now rewrite foldl_action_unfiltered_hook.
  - rewrite (act_without_amount this _ _ _ E Ea).
    now rewrite (act_without_amount (withMoveFilter this f) _ _ _ E Ea).
Qed.

End DispatchCoverage.

Section PoseCoverage.
Context {F Scene NodeRef SensorRef : Type}.
Context `{Scalar F} `{QuaternionMath F}.
Context `{SG : SceneGraph F Scene NodeRef SensorRef}.
Context {Laws : SceneGraphLaws SG} {FrameLaws : SceneGraphFrameLaws SG}.

#[local] Abbreviation MoveFunc := (NodeRef -> F -> Scene -> Scene).
Implicit Types (w : @World Scene) (s : Scene) (n m : NodeRef).
Implicit Types (this : @Agent F Scene NodeRef) (state : @AgentState F).

(** ** What a primitive leaves alone *)

Lemma translateLocal_other m n v s :
  m <> n -> localPose m (translateLocal n v s) = localPose m s.
Proof.
  intros Hne. unfold localPose.
  now rewrite translation_translateLocal_ne, rotation_translateLocal.
Qed.

Lemma translate_other m n v s :
  m <> n -> localPose m (translate n v s) = localPose m s.
Proof.
  intros Hne. unfold localPose.
  now rewrite translation_translate_ne, rotation_translate.
Qed.

Lemma turnLeft_other m n a s : m <> n -> localPose m (turnLeft n a s) = localPose m s.
Proof.
  intros Hne. unfold localPose, turnLeft.
  now rewrite translation_setRotation, translation_rotateYLocal,
    rotation_setRotation_ne, rotation_rotateYLocal_ne.
Qed.

Lemma lookUp_other m n a s : m <> n -> localPose m (lookUp n a s) = localPose m s.
Proof.
  intros Hne. unfold localPose, lookUp.
  now rewrite translation_setRotation, translation_rotateXLocal,
    rotation_setRotation_ne, rotation_rotateXLocal_ne.
Qed.

(** A primitive of the constructor's registry leaves every other node's
    translation and rotation as they were. *)
Lemma registered_primitive_other (actName : string) (moveFunc : MoveFunc) m n d s :
  moveFuncMap_ ObjectControls_new !! actName = Some moveFunc ->
  m <> n -> localPose m (moveFunc n d s) = localPose m s.
Proof.
  rewrite ObjectControls_new_registry. intros Hreg Hne.
  repeat (case_decide; [injection Hreg as <-|]); try discriminate;
    unfold lookDown, turnRight, moveForward, moveDown, moveLeft,
      moveBackward, moveUp, moveRight;
    auto using translateLocal_other, translate_other, turnLeft_other, lookUp_other.
Qed.

(** X7: a movement primitive never changes the node's rotation and a
    rotation primitive never changes its translation; whichever of the ten
    primitives runs on a node, every other node keeps its translation and
    rotation. *)
Theorem primitives_change_one_component n (d : F) s :
  (rotation n (moveRight n d s) = rotation n s
   /\ rotation n (moveLeft n d s) = rotation n s
   /\ rotation n (moveUp n d s) = rotation n s
   /\ rotation n (moveDown n d s) = rotation n s
   /\ rotation n (moveForward n d s) = rotation n s
   /\ rotation n (moveBackward n d s) = rotation n s)
  /\ (translation n (turnLeft n d s) = translation n s
      /\ translation n (turnRight n d s) = translation n s
      /\ translation n (lookUp n d s) = translation n s
      /\ translation n (lookDown n d s) = translation n s)
  /\ (forall (actName : string) (moveFunc : MoveFunc) m,
        moveFuncMap_ ObjectControls_new !! actName = Some moveFunc ->
        m <> n -> localPose m (moveFunc n d s) = localPose m s).
Proof.
  split; [|split].
  - unfold moveLeft, moveDown, moveForward, moveRight, moveUp, moveBackward.
    now rewrite !rotation_translateLocal, !rotation_translate.
  - unfold turnRight, lookDown, turnLeft, lookUp.
    now rewrite !translation_setRotation, !translation_rotateYLocal,
      !translation_rotateXLocal.
  - intros actName moveFunc m Hreg Hne. now apply (registered_primitive_other actName).
Qed.

(** ** Which nodes [act] moves *)

Lemma action_other (ctl : ObjectControls) m n (actName : string) (d : F)
    (applyFilter : bool) w :
  moveFuncMap_ ctl = moveFuncMap_ ObjectControls_new ->
  m <> n ->
  localPose m (scene (action ctl n actName d applyFilter w).2) = localPose m (scene w).
Proof.
  intros Hstd Hne. unfold action. rewrite Hstd.
  destruct (moveFuncMap_ ObjectControls_new !! actName) as [moveFunc|] eqn:Hreg;
    [|reflexivity].
  destruct applyFilter; simpl.
  - rewrite translate_other by exact Hne.
    now apply (registered_primitive_other actName).
  - now apply (registered_primitive_other actName).
Qed.

Lemma foldl_action_other (ctl : ObjectControls) m (actName : string) (d : F)
    (l : list (string * SensorRef)) w :
  moveFuncMap_ ctl = moveFuncMap_ ObjectControls_new ->
  (forall p, p ∈ l -> sensorObject p.2 <> m) ->
  localPose m
    (scene (foldl (fun w' (p : string * SensorRef) =>
                     (action ctl (sensorObject p.2) actName d false w').2) w l))
  = localPose m (scene w).
Proof.
  intros Hstd. revert w. induction l as [|p l IH]; intros w Hl; simpl; [reflexivity|].
  rewrite IH.
  - apply action_other; [exact Hstd|]. intros Heq. apply (Hl p); [left|now symmetry].
  - intros q Hq. apply Hl. now right.
Qed.

(** X8: with the constructor's registry, [act] moves only its targets.  A
    body action leaves the translation and rotation of every node but the
    agent's own as they were, the sensors' included; a sensor action leaves
    them as they were for every node that is not the node of an attached
    sensor, so the agent's own node stays put unless a sensor sits on it. *)
Theorem act_moves_only_its_targets this actionName actionSpec amount w :
  actionSpace (configuration_ this) !! actionName = Some actionSpec ->
  actuation actionSpec !! "amount" = Some amount ->
  moveFuncMap_ (controls_ this) = moveFuncMap_ ObjectControls_new ->
  exists w', act this actionName w = Returned true w'
    /\ (name actionSpec ∈ BodyActions ->
          forall m, m <> node this -> localPose m (scene w') = localPose m (scene w))
    /\ (name actionSpec ∉ BodyActions ->
          forall m, (forall p, p ∈ getNodeSensors (node this) (scene w) ->
                               sensorObject p.2 <> m) ->
                    localPose m (scene w') = localPose m (scene w)).
Proof.
  intros E Ea Hstd.
  destruct (decide (name actionSpec ∈ BodyActions)) as [Hb|Hb].
  - eexists. split; [exact (act_body _ _ _ _ _ E Ea Hb)|]. split; [|contradiction].
    intros _ m Hne. unfold bodyActionResult. now apply action_other.
  - eexists. split; [exact (act_sensors _ _ _ _ _ E Ea Hb)|]. split; [contradiction|].
    intros _ m Hm. unfold sensorActionResult. now apply foldl_action_other.
Qed.

(** ** Body actions on the constructor's registry *)

(** X9: on a dispatcher with the constructor's registry a configured body
    action always finds its primitive: [act] returns [true], the primitive
    ran on the agent's node followed by the filter's correction, and nothing
    is written to the error channel. *)
Theorem act_body_action_is_dispatched this actionName actionSpec amount w :
  actionSpace (configuration_ this) !! actionName = Some actionSpec ->
  actuation actionSpec !! "amount" = Some amount ->
  name actionSpec ∈ BodyActions ->
  moveFuncMap_ (controls_ this) = moveFuncMap_ ObjectControls_new ->
  exists moveFunc : MoveFunc,
    moveFuncMap_ ObjectControls_new !! name actionSpec = Some moveFunc
    /\ let afterPrimitive := moveFunc (node this) amount (scene w) in
       let endPosition := absoluteTranslation (node this) afterPrimitive in
       let corrected :=
         moveFilterFunc_ (controls_ this)
           (absoluteTranslation (node this) (scene w)) endPosition in
       act this actionName w
       = Returned true
           (mkWorld (translate (node this) (vsub corrected endPosition) afterPrimitive)
                    (errorLog w)).
Proof.
  intros E Ea Hb Hstd.
  destruct (moveFuncMap_ ObjectControls_new !! name actionSpec) as [moveFunc|] eqn:Hreg.
  - exists moveFunc. split; [reflexivity|]. simpl.
    rewrite (act_body _ _ _ _ _ E Ea Hb). unfold bodyActionResult, action.
    now rewrite Hstd, Hreg.
  - exfalso. rewrite ObjectControls_new_registry in Hreg.
    apply BodyActions_closed in Hb.
    repeat (case_decide; [discriminate|]). intuition congruence.
Qed.

(** ** Where a filtered action ends *)

(** X10: when the node has no parent frame, so that its absolute
    translation is its own translation after the primitive and after the
    correction, and the one sum [end + (corrected - end)] of this call comes
    out as [corrected], a filtered action leaves the node at the position
    the hook returned; with a hook that answers with the start position the
    node ends where it started. *)
Theorem filtered_action_ends_at_corrected (ctl : ObjectControls) n
    (actName : string) (moveFunc : MoveFunc) (d : F) w :
  moveFuncMap_ ctl !! actName = Some moveFunc ->
  let startPosition := absoluteTranslation n (scene w) in
  let afterPrimitive := moveFunc n d (scene w) in
  let endPosition := absoluteTranslation n afterPrimitive in
  let corrected := moveFilterFunc_ ctl startPosition endPosition in
  let w' := (action ctl n actName d true w).2 in
  endPosition = translation n afterPrimitive ->
  absoluteTranslation n (scene w') = translation n (scene w') ->
  vadd endPosition (vsub corrected endPosition) = corrected ->
  absoluteTranslation n (scene w') = corrected
  /\ ((forall a b, moveFilterFunc_ ctl a b = a) ->
        absoluteTranslation n (scene w') = startPosition).
Proof.
  intros Hreg startPosition afterPrimitive endPosition corrected w' Hend Hfinal Hexact.
  assert (Habs : absoluteTranslation n (scene w') = corrected).
  { rewrite Hfinal. unfold w', action. rewrite Hreg. simpl.
    rewrite translation_translate.
    fold afterPrimitive. rewrite <- Hend. exact Hexact. }
  split; [exact Habs|]. intros Hreject. rewrite Habs. apply Hreject.
Qed.

(** ** Writing and reading the state *)


Lemma foldl_setTransformationFromSpec_other m (l : list (string * SensorRef)) s :
  (forall p, p ∈ l -> sensorObject p.2 <> m) ->
  localPose m (foldl (fun s' (p : string * SensorRef) =>
                        setTransformationFromSpec p.2 s') s l)
  = localPose m s.
Proof.
  revert s. induction l as [|p l IH]; intros s Hl; simpl; [reflexivity|].
  rewrite IH by (intros q Hq; apply Hl; now right).
  assert (Hne : m <> sensorObject p.2).
  { intros Heq. apply (Hl p); [left|now symmetry]. }
  unfold localPose.
  now rewrite translation_setTransformationFromSpec_ne,
    rotation_setTransformationFromSpec_ne.
Qed.

(** The pose [setState] leaves when it also resets the sensors. *)
Lemma setState_with_reset this state w :
  isNormalized (stateQuaternion state) = true ->
  (forall p, p ∈ getNodeSensors (node this) (scene w) -> sensorObject p.2 <> node this) ->
  exists w', setState this state true w = Returned tt w'
             /\ localPose (node this) (scene w')
                = (state_position state, stateQuaternion state).
Proof.
  intros Hn Hs. eexists. split; [now apply setState_valid|]. simpl.
  unfold sensorsReset. rewrite foldl_setTransformationFromSpec_other.
  - unfold localPose, committedPose.
    now rewrite translation_setRotation, translation_setTranslation,
      rotation_setRotation.
  - unfold committedPose.
    now rewrite getNodeSensors_setRotation, getNodeSensors_setTranslation.
Qed.

(** X12: resetting the sensors does not disturb what [setState] wrote: when
    no attached sensor sits on the agent's own node, [setState] with
    [resetSensors = true] leaves the node with the state's translation and
    rotation. *)
Theorem setState_reset_sensors_keeps_pose this state w :
  isNormalized (stateQuaternion state) = true ->
  (forall p, p ∈ getNodeSensors (node this) (scene w) -> sensorObject p.2 <> node this) ->
  exists w', setState this state true w = Returned tt w'
             /\ translation (node this) (scene w') = state_position state
             /\ rotation (node this) (scene w') = stateQuaternion state.
Proof.
  intros Hn Hs. destruct (setState_with_reset this state w Hn Hs) as (w' & Hret & Hpose).
  exists w'. split; [exact Hret|]. unfold localPose in Hpose.
  now injection Hpose as -> ->.
Qed.


End PoseCoverage.

(** * Further facts of the reference scene graph *)

Section RealModelCoverage.
Local Open Scope R_scope.

Implicit Types (s : RScene) (n m p : list nat) (q : Quaternion R).

#[global] Instance RSceneGraphFrameLaws : SceneGraphFrameLaws RSceneGraph.
Proof.
  split; simpl; intros;
    unfold RsetRotation, Rtranslate, RrotateLocal, RsetTransformationFromSpec, updateNode;
    try case_decide; subst; simpl; congruence.
Qed.

Lemma m_translation_trsMatrix (t : Vector3 R) q (k : Vector3 R) :
  m_translation (trsMatrix t q k) = t.
Proof. now destruct q as [[x y z] r]. Qed.

(** Changing a node does not change the absolute transformation of a node
    nearer to the root. *)
Lemma absoluteTransformation_updateNode_shorter n f s p :
  (length p < length n)%nat ->
  absoluteTransformation p (updateNode n f s) = absoluteTransformation p s.
Proof.
  induction p as [|a p IH]; intros Hlen; simpl in *.
  - unfold localTransformation. rewrite updateNode_other; [reflexivity|].
    intros <-. simpl in Hlen. lia.
  - rewrite IH by lia. unfold localTransformation.
    rewrite updateNode_other; [reflexivity|]. intros <-. simpl in Hlen. lia.
Qed.

(** A change of a node that keeps its translation keeps its absolute
    translation. *)
Lemma absoluteTranslation_updateNode n f s :
  (forall d, nTranslation (f d) = nTranslation d) ->
  m_translation (absoluteTransformation n (updateNode n f s))
  = m_translation (absoluteTransformation n s).
Proof.
  intros Hf. destruct n as [|a p]; simpl.
  - unfold localTransformation.
    now rewrite !m_translation_trsMatrix, updateNode_same, Hf.
  - rewrite absoluteTransformation_updateNode_shorter by (simpl; lia).
    unfold localTransformation.
    now rewrite !m_translation_trsMatrix, updateNode_same, Hf.
Qed.

Lemma rotateAndNormalize_absoluteTranslation axis n a s :
  m_translation (absoluteTransformation n (rotateAndNormalize axis n a s))
  = m_translation (absoluteTransformation n s).
Proof.
  unfold rotateAndNormalize, RsetRotation, RrotateLocal.
  now rewrite !absoluteTranslation_updateNode.
Qed.

(** X14: a rotation primitive turns the node in place: its absolute
    translation is the same before and after, however deep the node hangs in
    the scene graph, so the hook of a filtered turn is asked with equal start
    and end positions. *)
Theorem rotation_primitives_turn_in_place n a s :
  absoluteTranslation n (turnLeft n a s) = absoluteTranslation n s
  /\ absoluteTranslation n (turnRight n a s) = absoluteTranslation n s
  /\ absoluteTranslation n (lookUp n a s) = absoluteTranslation n s
  /\ absoluteTranslation n (lookDown n a s) = absoluteTranslation n s.
Proof.
  unfold turnRight, lookDown.
  rewrite !turnLeft_rotateAndNormalize, !lookUp_rotateAndNormalize. simpl.
  now rewrite !rotateAndNormalize_absoluteTranslation.
Qed.

End RealModelCoverage.

(** * The further properties on concrete scenes *)

Section CoverageScenarios.
Local Open Scope R_scope.

Lemma jump_is_not_body : "jump" ∉ BodyActions.
Proof. intros Hin. apply BodyActions_closed in Hin. intuition discriminate. Qed.

Lemma sceneWithSensors_off_agent (p : string * RSensor) :
  p ∈ getNodeSensors (SceneGraph:=RSceneGraph) [] sceneWithSensors ->
  sensorObject p.2 <> [].
Proof.
  intros Hp.
  change (p ∈ [("depth", depthSensor); ("rgb", rgbSensor)]) in Hp.
  rewrite !elem_of_cons, elem_of_nil in Hp.
  destruct Hp as [->|[->|[]]]; discriminate.
Qed.


Lemma emptyScene_unit_rotation n : qdot (rotation n emptyScene) = 1.
Proof. real_eval. lra. Qed.

Lemma act_bare_lookUp_fails :
  act bareAgent "lookUp" (mkWorld sceneWithSensors [])
  = Failed (OutOfRange "amount") (mkWorld sceneWithSensors []).
Proof.
  rewrite (act_without_amount bareAgent "lookUp" (mkActionSpec "lookUp" ∅) _
             eq_refl eq_refl).
  rewrite bool_decide_eq_false_2 by exact lookUp_is_not_body. reflexivity.
Qed.

Lemma act_failure_is_atomic_witness :
  exists e w', act bareAgent "lookUp" (mkWorld sceneWithSensors []) = Failed e w'
               /\ e = OutOfRange "amount" /\ w' = mkWorld sceneWithSensors [].
Proof.
  eexists _, _. split; [exact act_bare_lookUp_fails|].
  exact (act_failure_is_atomic bareAgent "lookUp" _ _ _ act_bare_lookUp_fails).
Defined.

Lemma act_reports_hasAction_witness :
  hasAction demoAgent "fly" = false /\ hasAction demoAgent "lookUp" = true.
Proof.
  split.
  - symmetry.
    exact (proj1 (act_reports_hasAction demoAgent "fly" world0 false world0
                    (act_unconfigured demoAgent "fly" world0 eq_refl))).
  - symmetry.
    exact (proj1 (act_reports_hasAction demoAgent "lookUp" world0 true _
                    (act_sensors demoAgent "lookUp"
                       (mkActionSpec "lookUp" {["amount" := 10]}) 10 world0
                       eq_refl eq_refl lookUp_is_not_body))).
Defined.

Lemma act_unregistered_action_witness :
  act customAgent "jump" (mkWorld sceneWithSensors [])
  = Returned true
      (mkWorld sceneWithSensors
         ["Tried to perform unknown action with name jump";
          "Tried to perform unknown action with name jump"]).
Proof.
  exact (act_unregistered_action customAgent "jump"
           (mkActionSpec "jump" {["amount" := 1]}) 1 (mkWorld sceneWithSensors [])
           eq_refl eq_refl jump_is_not_body eq_refl).
Defined.

Lemma act_sensor_action_ignores_hook_witness :
  act (withMoveFilter demoAgent rejectingFilter) "lookUp" (mkWorld sceneWithSensors [])
  = act demoAgent "lookUp" (mkWorld sceneWithSensors []).
Proof.
  exact (act_sensor_action_ignores_hook demoAgent rejectingFilter "lookUp"
           (mkActionSpec "lookUp" {["amount" := 10]}) (mkWorld sceneWithSensors [])
           eq_refl lookUp_is_not_body).
Defined.

Lemma primitives_change_one_component_witness :
  rotation [0%nat] (moveForward (SG:=RSceneGraph) [0%nat] 1 flippedParentScene)
  = rotation [0%nat] flippedParentScene
  /\ translation [0%nat] (turnLeft (SG:=RSceneGraph) [0%nat] 1 flippedParentScene)
     = translation [0%nat] flippedParentScene
  /\ localPose [] (lookUp (SG:=RSceneGraph) [0%nat] 1 flippedParentScene)
     = localPose [] flippedParentScene.
Proof.
  destruct (primitives_change_one_component (Laws:=RSceneGraphLaws)
              (FrameLaws:=RSceneGraphFrameLaws) [0%nat] 1 flippedParentScene)
    as ((_ & _ & _ & _ & Hmove & _) & (Hturn & _) & Hother).
  split; [exact Hmove|]. split; [exact Hturn|].
  apply (Hother "lookUp" lookUp []); [reflexivity|discriminate].
Defined.

Lemma act_moves_only_its_targets_witness :
  exists w', act demoAgent "lookUp" (mkWorld sceneWithSensors []) = Returned true w'
             /\ localPose [] (scene w') = localPose [] sceneWithSensors.
Proof.
  destruct (act_moves_only_its_targets demoAgent "lookUp"
              (mkActionSpec "lookUp" {["amount" := 10]}) 10
              (mkWorld sceneWithSensors []) eq_refl eq_refl eq_refl)
    as (w' & Hact & _ & Hsensor).
  exists w'. split; [exact Hact|].
  apply (Hsensor lookUp_is_not_body). exact sceneWithSensors_off_agent.
Defined.

Lemma act_body_action_is_dispatched_witness :
  exists w', act demoAgent "moveForward" world0 = Returned true w'
             /\ errorLog w' = [].
Proof.
  destruct (act_body_action_is_dispatched demoAgent "moveForward"
              (mkActionSpec "moveForward" {["amount" := 1 / 4]}) (1 / 4) world0
              eq_refl eq_refl moveForward_is_body eq_refl)
    as (moveFunc & _ & Hact).
  eexists. split; [exact Hact|reflexivity].
Defined.

(** A rejected "moveForward" by one unit from [(3, 0, 0)]: the one sum of
    the call is [(3, 0, -1) + ((3, 0, 0) - (3, 0, -1))]. *)
Lemma filtered_action_ends_at_corrected_witness :
  absoluteTranslation []
    (scene (action (setMoveFilterFunction ObjectControls_new rejectingFilter) []
                   "moveForward" 1 true
                   (mkWorld (RsetTranslation [] (mkVector3 3 0 0) emptyScene) [])).2)
  = mkVector3 3 0 0.
Proof.
  assert (Hstart : absoluteTranslation []
                     (RsetTranslation [] (mkVector3 3 0 0) emptyScene)
                   = mkVector3 3 0 0) by reflexivity.
  rewrite <- Hstart at 2.
  apply (filtered_action_ends_at_corrected
           (setMoveFilterFunction ObjectControls_new rejectingFilter) []
           "moveForward" moveForward 1
           (mkWorld (RsetTranslation [] (mkVector3 3 0 0) emptyScene) []) eq_refl).
  - apply absoluteTranslation_parentless.
  - apply absoluteTranslation_parentless.
  - real_eval. f_equal; lra.
  - reflexivity.
Defined.


Lemma setState_reset_sensors_keeps_pose_witness :
  exists w', setState demoAgent movedState true (mkWorld sceneWithSensors [])
             = Returned tt w'
             /\ translation [] (scene w') = mkVector3 5 0 0
             /\ rotation [] (scene w') = mkQuaternion (mkVector3 0 0 0) 1.
Proof.
  exact (setState_reset_sensors_keeps_pose demoAgent movedState
           (mkWorld sceneWithSensors []) movedState_normalized
           sceneWithSensors_off_agent).
Defined.


End CoverageScenarios.

(** * Sensor actions, sensor by sensor *)

Section SensorActions.
Local Open Scope R_scope.

Implicit Types (s : RScene) (n m : list nat).

(** On the reference scene graph a primitive of the registry rewrites the
    node it is called on, from that node's own data, and no other node. *)
Lemma registered_primitive_local (actName : string)
    (moveFunc : list nat -> R -> RScene -> RScene) n d s :
  moveFuncMap_ ObjectControls_new !! actName = Some moveFunc ->
  (forall m, m <> n -> moveFunc n d s m = s m)
  /\ (forall s', s' n = s n -> moveFunc n d s' n = moveFunc n d s n).
Proof.
  rewrite ObjectControls_new_registry. intros Hreg.
  repeat (case_decide; [injection Hreg as <-|]); try discriminate;
    unfold lookDown, turnRight, moveForward, moveDown, moveLeft,
      lookUp, turnLeft, moveBackward, moveUp, moveRight; simpl;
    unfold RsetRotation, RrotateLocal, Rtranslate, localTransformation, updateNode;
    (split; [intros m Hne; now rewrite ?decide_False by exact Hne
            |intros s' Hs'; now rewrite ?decide_True, ?Hs' by reflexivity]).
Qed.

Lemma foldl_action_per_node (ctl : ObjectControls) (actName : string)
    (moveFunc : list nat -> R -> RScene -> RScene) (d : R)
    (l : list (string * RSensor)) (w : @World RScene) :
  moveFuncMap_ ctl = moveFuncMap_ ObjectControls_new ->
  moveFuncMap_ ObjectControls_new !! actName = Some moveFunc ->
  NoDup (map (fun p : string * RSensor => sensorNode p.2) l) ->
  let w' := foldl (fun w' (p : string * RSensor) =>
                     (action ctl (sensorObject p.2) actName d false w').2) w l in
  (forall p, p ∈ l ->
     scene w' (sensorNode p.2) = moveFunc (sensorNode p.2) d (scene w) (sensorNode p.2))
  /\ (forall m, m ∉ map (fun p : string * RSensor => sensorNode p.2) l ->
                scene w' m = scene w m)
  /\ errorLog w' = errorLog w.
Proof.
  intros Hstd Hreg. revert w. induction l as [|p l IH]; intros w Hnd w'.
  - split; [|split]; [intros q Hq; now apply elem_of_nil in Hq|reflexivity|reflexivity].
  - cbn [map] in Hnd. apply NoDup_cons in Hnd as [Hp Hnd].
    set (w1 := (action ctl (sensorObject p.2) actName d false w).2).
    assert (Hw1 : scene w1 = moveFunc (sensorNode p.2) d (scene w)
                  /\ errorLog w1 = errorLog w).
    { unfold w1, action. now rewrite Hstd, Hreg. }
    destruct Hw1 as [Hs1 He1].
    destruct (IH w1 Hnd) as (IHin & IHout & IHlog).
    change w' with (foldl (fun w' (p : string * RSensor) =>
                             (action ctl (sensorObject p.2) actName d false w').2) w1 l).
    destruct (registered_primitive_local actName moveFunc (sensorNode p.2) d (scene w) Hreg)
      as [Hother _].
    split; [|split].
    + intros q Hq. apply elem_of_cons in Hq as [->|Hq].
      * rewrite (IHout _ Hp). now rewrite Hs1.
      * rewrite (IHin q Hq).
        apply (registered_primitive_local actName moveFunc (sensorNode q.2) d (scene w) Hreg).
        rewrite Hs1. apply Hother. intros Heq. apply Hp. rewrite <- Heq.
        apply list_elem_of_fmap. now exists q.
    + intros m Hm. cbn [map] in Hm. apply not_elem_of_cons in Hm as [Hne Hm].
      rewrite (IHout m Hm), Hs1. now apply Hother.
    + now rewrite IHlog.
Qed.

(** X18: on the reference scene graph a registered sensor action treats the
    attached sensors independently: when they sit on distinct nodes, [act]
    leaves each sensor's node as the primitive, applied to that node alone in
    the scene [act] started from, would leave it; every other node is as it
    was, and nothing is reported. *)
Theorem act_sensor_action_per_node (this : @Agent R RScene (list nat))
    (actionName : string) (actionSpec : @ActionSpec R) (amount : R)
    (moveFunc : list nat -> R -> RScene -> RScene) (w : @World RScene) :
  actionSpace (configuration_ this) !! actionName = Some actionSpec ->
  actuation actionSpec !! "amount" = Some amount ->
  name actionSpec ∉ BodyActions ->
  moveFuncMap_ (controls_ this) = moveFuncMap_ ObjectControls_new ->
  moveFuncMap_ ObjectControls_new !! name actionSpec = Some moveFunc ->
  NoDup (map (fun p : string * RSensor => sensorNode p.2)
             (getNodeSensors (node this) (scene w))) ->
  exists w', act this actionName w = Returned true w'
    /\ (forall p, p ∈ getNodeSensors (node this) (scene w) ->
          scene w' (sensorNode p.2)
          = moveFunc (sensorNode p.2) amount (scene w) (sensorNode p.2))
    /\ (forall m, m ∉ map (fun p : string * RSensor => sensorNode p.2)
                          (getNodeSensors (node this) (scene w)) ->
                  scene w' m = scene w m)
    /\ errorLog w' = errorLog w.
Proof.
  intros E Ea Hb Hstd Hreg Hnd. eexists.
  split; [exact (act_sensors _ _ _ _ _ E Ea Hb)|].
  unfold sensorActionResult.
  exact (foldl_action_per_node (controls_ this) (name actionSpec) moveFunc amount
           _ w Hstd Hreg Hnd).
Qed.

Lemma sceneWithSensors_distinct_nodes :
  NoDup (map (fun p : string * RSensor => sensorNode p.2)
             (getNodeSensors (SceneGraph:=RSceneGraph) [] sceneWithSensors)).
Proof.
  change (NoDup [[1%nat]; [0%nat]]).
  apply NoDup_cons. split.
  - rewrite elem_of_cons, elem_of_nil. intros [Heq|[]]. discriminate.
  - apply NoDup_cons. split; [apply not_elem_of_nil|apply NoDup_nil_2].
Qed.

(** Both sensors look up by ten degrees; the agent's node is left alone. *)
Lemma act_sensor_action_per_node_witness :
  exists w', act demoAgent "lookUp" (mkWorld sceneWithSensors []) = Returned true w'
    /\ scene w' [0%nat] = lookUp (SG:=RSceneGraph) [0%nat] 10 sceneWithSensors [0%nat]
    /\ scene w' [1%nat] = lookUp (SG:=RSceneGraph) [1%nat] 10 sceneWithSensors [1%nat]
    /\ scene w' [] = sceneWithSensors [].
Proof.
  destruct (act_sensor_action_per_node demoAgent "lookUp"
              (mkActionSpec "lookUp" {["amount" := 10]}) 10 lookUp
              (mkWorld sceneWithSensors []) eq_refl eq_refl lookUp_is_not_body
              eq_refl eq_refl sceneWithSensors_distinct_nodes)
    as (w' & Hact & Hin & Hout & _).
  exists w'. split; [exact Hact|]. split; [|split].
  - apply (Hin ("rgb", rgbSensor)).
    change (("rgb", rgbSensor) ∈ [("depth", depthSensor); ("rgb", rgbSensor)]).
    rewrite !elem_of_cons. tauto.
  - apply (Hin ("depth", depthSensor)).
    change (("depth", depthSensor) ∈ [("depth", depthSensor); ("rgb", rgbSensor)]).
    rewrite !elem_of_cons. tauto.
  - apply Hout. change ([] ∉ [[1%nat]; [0%nat]]).
    rewrite !elem_of_cons, elem_of_nil. intros [Heq|[Heq|[]]]; discriminate.
Defined.

End SensorActions.
